(** * Open Craft: the crafting state engine

    A shallow embedding of the game engine of open-craft (Go): the
    [GameState] record, the discovery ledger ([isDiscovered],
    [addDiscovered]), the combination resolver ([combineElements]), the
    untried-combination enumerator ([getUntriedCombos]), the identifier
    normalisation, the loaders and the HTTP combine handler.

    Go strings are byte strings and are modelled as [string]; Go maps are
    [gmap]s; slices are lists; a function that mutates its receiver returns
    the new [GameState]. *)

From Stdlib Require Import Ascii.
From stdpp Require Import base option list sorting strings gmap fin_maps.

(** ** Data model *)

(** [type Element struct { Name, Category string }] *)
Record Element := mkElement {
  Name : string;
  Category : string
}.

(** [type GameState struct]: the catalog ([Elements], [Recipes],
    [Impossible]) and the ledger ([Discovered]). *)
Record GameState := mkGameState {
  Elements : gmap string Element;
  Recipes : gmap string string;
  Discovered : list string;
  Impossible : list string
}.

Definition withDiscovered (gs : GameState) (d : list string) : GameState :=
  {| Elements := Elements gs; Recipes := Recipes gs;
     Discovered := d; Impossible := Impossible gs |}.

(** Indexing a Go map with an absent key yields the zero value. *)
Definition zeroElement : Element := {| Name := ""; Category := "" |}.

Definition elementAt (m : gmap string Element) (k : string) : Element :=
  default zeroElement (m !! k).

(** ** Library functions of Go used by the engine *)

(** [slices.Contains]: a left-to-right scan comparing with [==]. *)
Fixpoint slices_Contains (s : list string) (v : string) : bool :=
  match s with
  | [] => false
  | x :: rest => if String.eqb x v then true else slices_Contains rest v
  end.

(** ** Discovery ledger *)

Definition isDiscovered (gs : GameState) (element : string) : bool :=
  slices_Contains (Discovered gs) element.

Definition addDiscovered (gs : GameState) (element : string) : GameState :=
  if negb (isDiscovered gs element)
  then withDiscovered gs (Discovered gs ++ [element])
  else gs.

(** ** Combination resolver *)

(** [combineElements] returns the result identifier (the empty string when
    there is no recipe) together with the game state after the call. *)
Definition combineElements (gs : GameState) (elem1 elem2 : string)
  : string * GameState :=
  let combo1 := elem1 +:+ "+" +:+ elem2 in
  let combo2 := elem2 +:+ "+" +:+ elem1 in
  match Recipes gs !! combo1 with
  | Some result => (result, addDiscovered gs result)
  | None =>
      match Recipes gs !! combo2 with
      | Some result => (result, addDiscovered gs result)
      | None => ("", gs)
      end
  end.

(** ** Identifier normalisation *)

(** The byte-level behaviour of [strings.TrimSpace], [strings.ToLower] and
    [strings.ReplaceAll]. On ASCII input ([isASCII]) this is exactly what Go
    does; Go additionally treats multi-byte UTF-8 runes (Unicode spaces and
    capitals), which this model passes through unchanged. *)
Definition isSpaceByte (c : ascii) : bool :=
  let n := N_of_ascii c in
  ((9 <=? n) && (n <=? 13) || (n =? 32))%N.

Definition toLowerByte (c : ascii) : ascii :=
  let n := N_of_ascii c in
  if ((65 <=? n) && (n <=? 90))%N then ascii_of_N (n + 32) else c.


Fixpoint mapBytes (f : ascii → ascii) (s : string) : string :=
  match s with
  | EmptyString => EmptyString
  | String c rest => String (f c) (mapBytes f rest)
  end.

Fixpoint allBytes (p : ascii → bool) (s : string) : bool :=
  match s with
  | EmptyString => true
  | String c rest => p c && allBytes p rest
  end.

Definition isASCII (s : string) : bool :=
  allBytes (λ c, (N_of_ascii c <? 128)%N) s.

Fixpoint trimLeft (s : string) : string :=
  match s with
  | EmptyString => EmptyString
  | String c rest => if isSpaceByte c then trimLeft rest else s
  end.

Fixpoint trimRight (s : string) : string :=
  match s with
  | EmptyString => EmptyString
  | String c rest =>
      match trimRight rest with
      | EmptyString => if isSpaceByte c then EmptyString else String c EmptyString
      | t => String c t
      end
  end.

Definition strings_TrimSpace (s : string) : string := trimRight (trimLeft s).

Definition strings_ToLower (s : string) : string := mapBytes toLowerByte s.

(** [strings.ReplaceAll(s, old, new)] for one-byte [old] and [new]. *)
Definition strings_ReplaceAll (s : string) (old new : ascii) : string :=
  mapBytes (λ c, if Ascii.eqb c old then new else c) s.

(** [normalizeElementName] of the current engine: trim, lower-case, then
    replace every space by a dash. *)
Definition normalizeElementName (name : string) : string :=
  let name := strings_ToLower (strings_TrimSpace name) in
  let name := strings_ReplaceAll name " " "-" in
  name.

(** The earlier revisions of the program (src/main.go and the CLI-only
    revision) normalise without the space replacement. *)
Module Legacy.
Definition normalizeElementName (name : string) : string :=
  strings_ToLower (strings_TrimSpace name).
End Legacy.

(** ** Untried-combination enumerator *)

(** [strings.Split(s, sep)] for a one-byte separator. *)
Fixpoint strings_Split (s : string) (sep : ascii) : list string :=
  match s with
  | EmptyString => [EmptyString]
  | String c rest =>
      if Ascii.eqb c sep then EmptyString :: strings_Split rest sep
      else match strings_Split rest sep with
           | [] => [String c EmptyString]
           | h :: t => String c h :: t
           end
  end.

(** [sort.Strings]: ascending byte-wise lexicographic order. The sorted
    list of a list of strings is unique, so the algorithm does not matter. *)
Definition sort_Strings (l : list string) : list string :=
  merge_sort String.le l.

(** [isImpossible] indexes the split combo at 1 and 0; [None] stands for the
    index-out-of-range panic. *)
Definition isImpossible (gs : GameState) (combo : string) : option bool :=
  let elements := strings_Split combo "+" in
  e1 ← elements !! 1%nat;
  e0 ← elements !! 0%nat;
  let reverse := e1 +:+ "+" +:+ e0 in
  Some (slices_Contains (Impossible gs) combo ||
        slices_Contains (Impossible gs) reverse).

(** One iteration of the inner loop of [getUntriedCombos]; [combos] is the
    slice built so far. *)
Definition comboStep (gs : GameState) (elem1 elem2 : string)
    (combos : list string) : option (list string) :=
  let combo1 := elem1 +:+ "+" +:+ elem2 in
  let combo2 := elem2 +:+ "+" +:+ elem1 in
  match Recipes gs !! combo1 with
  | Some _ => Some combos
  | None =>
      match Recipes gs !! combo2 with
      | Some _ => Some combos
      | None =>
          imp ← isImpossible gs combo1;
          if imp : bool then Some combos
          else Some (combos ++
                 [Name (elementAt (Elements gs) elem1) +:+ " + " +:+
                  Name (elementAt (Elements gs) elem2)])
      end
  end.

(** [for j := i; j < len(allElements); j++]: [rest] is [allElements[j:]]. *)
Fixpoint innerLoop (gs : GameState) (elem1 : string) (rest : list string)
    (combos : list string) : option (list string) :=
  match rest with
  | [] => Some combos
  | elem2 :: rest' =>
      combos' ← comboStep gs elem1 elem2 combos;
      innerLoop gs elem1 rest' combos'
  end.

(** [for i, elem1 := range allElements]: the argument is [allElements[i:]]. *)
Fixpoint outerLoop (gs : GameState) (remaining : list string)
    (combos : list string) : option (list string) :=
  match remaining with
  | [] => Some combos
  | elem1 :: rest =>
      combos' ← innerLoop gs elem1 (elem1 :: rest) combos;
      outerLoop gs rest combos'
  end.

Definition allElementNames (gs : GameState) : list string :=
  sort_Strings ((map_to_list (Elements gs)).*1).

Definition getUntriedCombos (gs : GameState) : option (list string) :=
  outerLoop gs (allElementNames gs) [].

(** *** The enumerator as the specification words it *)

(** All pairs of positions [(i, j)] with [i <= j], row by row. *)
Fixpoint orderedPairs (l : list string) : list (string * string) :=
  match l with
  | [] => []
  | x :: rest => (pair x <$> x :: rest) ++ orderedPairs rest
  end.

(** Neither ordering is a recipe key, neither ordering is listed as
    impossible. *)
Definition untried (gs : GameState) (p : string * string) : bool :=
  let combo1 := p.1 +:+ "+" +:+ p.2 in
  let combo2 := p.2 +:+ "+" +:+ p.1 in
  negb (bool_decide (is_Some (Recipes gs !! combo1))) &&
  negb (bool_decide (is_Some (Recipes gs !! combo2))) &&
  negb (slices_Contains (Impossible gs) combo1) &&
  negb (slices_Contains (Impossible gs) combo2).

Definition renderPair (gs : GameState) (p : string * string) : string :=
  Name (elementAt (Elements gs) p.1) +:+ " + " +:+
  Name (elementAt (Elements gs) p.2).

Definition untriedSpec (gs : GameState) : list string :=
  renderPair gs <$>
    filter (λ p, untried gs p = true) (orderedPairs (allElementNames gs)).

(** The order of the emitted pairs: by first identifier, then by second. *)
Definition pairLe (p q : string * string) : Prop :=
  (String.le p.1 q.1 ∧ p.1 ≠ q.1) ∨ (p.1 = q.1 ∧ String.le p.2 q.2).

Definition noPlus (s : string) : bool :=
  allBytes (λ c, negb (Ascii.eqb c "+")) s.

(** ** Loading the game state *)

Inductive LoadError :=
  | FailedToLoad (what : string)
  | FailedToParse (what : string)
  | ConfigDirError.

Inductive result (A : Type) :=
  | Err (e : LoadError)
  | Ok (a : A).
Arguments Err {A} e.
Arguments Ok {A} a.

Definition rbind {A B} (r : result A) (k : A → result B) : result B :=
  match r with
  | Err e => Err e
  | Ok a => k a
  end.

Notation "x ←ᵣ r ; k" := (rbind r (λ x, k))
  (at level 20, r at level 100, k at level 200, only parsing, right associativity).

(** A JSON data source of the catalog: it cannot be read, it does not
    parse, or it decodes to [v]. *)
Inductive Source (A : Type) :=
  | Unreadable
  | Malformed
  | Holds (v : A).
Arguments Unreadable {A}.
Arguments Malformed {A}.
Arguments Holds {A} v.

Record DataFiles := mkDataFiles {
  elementsJSON : Source (gmap string Element);
  recipesJSON : Source (gmap string string);
  impossibleJSON : Source (list string)
}.

(** A progress file as [os.ReadFile] and [json.Unmarshal] see it:
    [NoFile] when the read returns an error, [FileWith l] when the read
    succeeds and the (unchecked) decoding leaves [l] in the destination
    slice, which is the empty slice for content that is not JSON. *)
Inductive ProgressFile :=
  | NoFile
  | FileWith (decoded : list string).

(** What the loaders see of the outside world: the embedded data, the
    data directory on disk (developer mode), the results of
    [getProgressFilePath] and [getTelegramUserProgressPath] ([None] when they
    return an error) and the files by path. *)
Record Env := mkEnv {
  embeddedData : DataFiles;
  diskData : DataFiles;
  getProgressFilePath : option string;
  getTelegramUserProgressPath : Z → option string;
  readFile : string → ProgressFile
}.

(** [os.ReadFile] then [json.Unmarshal], as the developer mode does. *)
Definition readDiskJSON {A} (src : Source A) (what : string) : result A :=
  match src with
  | Unreadable => Err (FailedToLoad what)
  | Malformed => Err (FailedToParse what)
  | Holds v => Ok v
  end.

(** [loadEmbeddedJSON] wrapped by the caller's [fmt.Errorf]. *)
Definition loadEmbeddedJSON {A} (src : Source A) (what : string) : result A :=
  match src with
  | Unreadable | Malformed => Err (FailedToLoad what)
  | Holds v => Ok v
  end.

Definition bootstrap : list string := ["water"; "fire"; "earth"; "wind"].

(** The slice left in [gameState.Discovered] by the read and the decode. *)
Definition loadDiscovered (f : ProgressFile) : list string :=
  match f with
  | NoFile => []
  | FileWith decoded => decoded
  end.

Definition seedIfEmpty (discovered : list string) : list string :=
  if (length discovered =? 0)%nat then bootstrap else discovered.

(** [loadGameState]: the three catalog sources in turn (the first failure
    is returned), then the progress path, the progress file and the seeding.
    The save that follows the seeding writes the file only; its error is
    dropped. *)
Definition loadGameState (dev : bool) (env : Env) : result GameState :=
  catalog ←ᵣ
    (if dev then
       els ←ᵣ readDiskJSON (elementsJSON (diskData env)) "elements";
       rec ←ᵣ readDiskJSON (recipesJSON (diskData env)) "recipes";
       imp ←ᵣ readDiskJSON (impossibleJSON (diskData env)) "impossible";
       Ok (els, rec, imp)
     else
       els ←ᵣ loadEmbeddedJSON (elementsJSON (embeddedData env)) "elements";
       rec ←ᵣ loadEmbeddedJSON (recipesJSON (embeddedData env)) "recipes";
       imp ←ᵣ loadEmbeddedJSON (impossibleJSON (embeddedData env)) "impossible elements";
       Ok (els, rec, imp));
  let '(els, rec, imp) := catalog in
  match getProgressFilePath env with
  | None => Err ConfigDirError
  | Some progressPath =>
      let discovered := loadDiscovered (readFile env progressPath) in
      Ok {| Elements := els; Recipes := rec;
            Discovered := seedIfEmpty discovered; Impossible := imp |}
  end.

(** ** The chat bot's session directory *)

Record UserState := mkUserState {
  waitingForFirstElement : bool;
  waitingForSecondElement : bool;
  firstElement : string
}.

Record TelegramBot := mkTelegramBot {
  gameStates : gmap Z GameState;
  userStates : gmap Z UserState
}.

(** [getUserGameState]: the cached state of the identity if there is one,
    else a state loaded like [loadGameState] does (without the impossibility
    list) and cached. *)
Definition getUserGameState (tb : TelegramBot) (userID : Z) (env : Env)
  : result (GameState * TelegramBot) :=
  match gameStates tb !! userID with
  | Some gameState => Ok (gameState, tb)
  | None =>
      els ←ᵣ loadEmbeddedJSON (elementsJSON (embeddedData env)) "elements";
      rec ←ᵣ loadEmbeddedJSON (recipesJSON (embeddedData env)) "recipes";
      match getTelegramUserProgressPath env userID with
      | None => Err ConfigDirError
      | Some progressPath =>
          let discovered := loadDiscovered (readFile env progressPath) in
          let gameState :=
            {| Elements := els; Recipes := rec;
               Discovered := seedIfEmpty discovered; Impossible := [] |} in
          Ok (gameState,
              {| gameStates := <[userID := gameState]> (gameStates tb);
                 userStates := userStates tb |})
      end
  end.

(** ** The HTTP combine handler *)

Record CombineResponse := mkCombineResponse {
  Success : bool;
  Result : string;
  Error : string
}.

Record Request := mkRequest {
  Method : string;
  Query : gmap string (list string)
}.

(** [url.Values.Get]: the first value of the key, or the empty string. *)
Definition queryGet (r : Request) (key : string) : string :=
  match Query r !! key with
  | Some (v :: _) => v
  | _ => ""
  end.

Inductive Reply :=
  | MethodNotAllowed
  | Json (body : CombineResponse).

(** The handler reads the game state it closes over; the state it leaves
    is returned next to the reply. *)
Definition handleCombineAPI (gameState : GameState) (r : Request)
  : Reply * GameState :=
  if negb (String.eqb (Method r) "GET") then (MethodNotAllowed, gameState)
  else
    let elem1 := normalizeElementName (queryGet r "element-one") in
    let elem2 := normalizeElementName (queryGet r "element-two") in
    let combo1 := elem1 +:+ "+" +:+ elem2 in
    let combo2 := elem2 +:+ "+" +:+ elem1 in
    let response :=
      match Recipes gameState !! combo1 with
      | Some result =>
          {| Success := true;
             Result := Name (elementAt (Elements gameState) result);
             Error := "" |}
      | None =>
          match Recipes gameState !! combo2 with
          | Some result =>
              {| Success := true;
                 Result := Name (elementAt (Elements gameState) result);
                 Error := "" |}
          | None =>
              {| Success := false; Result := "";
                 Error := "These elements cannot be combined" |}
          end
      end in
    (Json response, gameState).

(** ** The terminal front-end: menu entry 1 *)

(** What the loop prints for a combine attempt. *)
Inductive Message :=
  | NotYetDiscovered   (* You haven't discovered one or both elements yet! *)
  | YouCreated (name : string)
  | CannotBeCombined.  (* These elements cannot be combined. *)

(** [case "1"] of the loop in [main], from the two answers of the player
    to the printed message and the game state. The write of the progress
    file after a creation does not touch the game state and its error is
    dropped. *)
Definition mainCombine (gameState : GameState) (input1 input2 : string)
  : Message * GameState :=
  let elem1 := normalizeElementName input1 in
  let elem2 := normalizeElementName input2 in
  if negb (isDiscovered gameState elem1) || negb (isDiscovered gameState elem2)
  then (NotYetDiscovered, gameState)
  else
    let '(result, gameState') := combineElements gameState elem1 elem2 in
    if negb (String.eqb result "")
    then (YouCreated (Name (elementAt (Elements gameState') result)), gameState')
    else (CannotBeCombined, gameState').

(** ** Vocabulary of the statements *)

(** The data files [loadGameState] reads in the given mode. *)
Definition selectedData (dev : bool) (env : Env) : DataFiles :=
  if dev then diskData env else embeddedData env.

Definition holds {A} (src : Source A) : bool :=
  match src with
  | Holds _ => true
  | _ => false
  end.

Definition catalogLoads (d : DataFiles) : bool :=
  holds (elementsJSON d) && holds (recipesJSON d) && holds (impossibleJSON d).

(** How the discovered list of a fresh state relates to the loaded list:
    seeded exactly when nothing was loaded, kept as loaded otherwise. *)
Definition seededFrom (loaded discovered : list string) : Prop :=
  (loaded = [] → discovered = bootstrap) ∧
  (loaded ≠ [] → discovered = loaded) ∧
  (bootstrap ⊆ discovered ↔ loaded = [] ∨ bootstrap ⊆ loaded).

(** The recipe found for a pair, first ordering first. *)
Definition firstMatch (recipes : gmap string string) (a b r : string) : Prop :=
  recipes !! (a +:+ "+" +:+ b) = Some r ∨
  (recipes !! (a +:+ "+" +:+ b) = None ∧ recipes !! (b +:+ "+" +:+ a) = Some r).

(** What one byte of the trimmed input becomes. *)
Definition normByte (c : ascii) : ascii :=
  if Ascii.eqb c " " then "-"%char else toLowerByte c.

Definition firstByte (s : string) : option ascii :=
  match s with
  | EmptyString => None
  | String c _ => Some c
  end.

Fixpoint lastByte (s : string) : option ascii :=
  match s with
  | EmptyString => None
  | String c EmptyString => Some c
  | String _ rest => lastByte rest
  end.

Definition notSpace (o : option ascii) : bool :=
  match o with
  | Some c => negb (isSpaceByte c)
  | None => true
  end.

(** No white space at either end. *)
Definition trimmed (s : string) : bool :=
  notSpace (firstByte s) && notSpace (lastByte s).

(** ** Sample data *)

(** The scenario catalog: the four primordial elements and steam. *)
Definition steamGame : GameState :=
  {| Elements :=
       list_to_map [("water", mkElement "Water" "Primordial");
                    ("fire", mkElement "Fire" "Primordial");
                    ("earth", mkElement "Earth" "Primordial");
                    ("wind", mkElement "Wind" "Primordial");
                    ("steam", mkElement "Steam" "Atmospheric")];
     Recipes := {[ "water+fire" := "steam" ]};
     Discovered := bootstrap;
     Impossible := [] |}.

(** A recipe table that stores both orderings of one pair with two
    different results. *)
Definition twoWayGame : GameState :=
  {| Elements := ∅;
     Recipes := <[ "a+b" := "x" ]> {[ "b+a" := "y" ]};
     Discovered := ["a"; "b"];
     Impossible := [] |}.

(** Undiscovered operands with a stored recipe. *)
Definition lockedGame : GameState :=
  {| Elements := ∅;
     Recipes := {[ "mud+rain" := "swamp" ]};
     Discovered := bootstrap;
     Impossible := [] |}.

(** The catalog [{A, B, C}] with recipe [A+B=D] and impossibility [A+C]. *)
Definition abcGame : GameState :=
  {| Elements :=
       list_to_map [("C", mkElement "C" ""); ("A", mkElement "A" "");
                    ("B", mkElement "B" "")];
     Recipes := {[ "A+B" := "D" ]};
     Discovered := [];
     Impossible := ["A+C"] |}.

(** A catalog with an identifier that contains the key separator. *)
Definition plusGame : GameState :=
  {| Elements :=
       list_to_map [("a+b", mkElement "AB" ""); ("c", mkElement "C" "")];
     Recipes := ∅;
     Discovered := [];
     Impossible := ["c+a+b"] |}.

Definition goodData : DataFiles :=
  {| elementsJSON := Holds (Elements steamGame);
     recipesJSON := Holds (Recipes steamGame);
     impossibleJSON := Holds [] |}.

Definition noData : DataFiles :=
  {| elementsJSON := Unreadable; recipesJSON := Unreadable;
     impossibleJSON := Unreadable |}.

(** A new player: the data loads, no progress file exists. *)
Definition newPlayerEnv : Env :=
  {| embeddedData := goodData; diskData := goodData;
     getProgressFilePath := Some "progress.json";
     getTelegramUserProgressPath := λ _, Some "telegram/0.json";
     readFile := λ _, NoFile |}.

(** A progress file that lists one element which is not primordial. *)
Definition steamOnlyEnv : Env :=
  {| embeddedData := goodData; diskData := goodData;
     getProgressFilePath := Some "progress.json";
     getTelegramUserProgressPath := λ _, Some "telegram/0.json";
     readFile := λ _, FileWith ["steam"] |}.

(** The configuration directory cannot be determined or created. *)
Definition noConfigDirEnv : Env :=
  {| embeddedData := goodData; diskData := goodData;
     getProgressFilePath := None;
     getTelegramUserProgressPath := λ _, None;
     readFile := λ _, NoFile |}.

(** The embedded recipes are malformed. *)
Definition badRecipesEnv : Env :=
  {| embeddedData :=
       {| elementsJSON := Holds ∅; recipesJSON := Malformed;
          impossibleJSON := Holds [] |};
     diskData := noData;
     getProgressFilePath := Some "progress.json";
     getTelegramUserProgressPath := λ _, Some "telegram/0.json";
     readFile := λ _, FileWith ["water"] |}.

Definition newBot : TelegramBot := {| gameStates := ∅; userStates := ∅ |}.

Definition getRequest (one two : string) : Request :=
  {| Method := "GET";
     Query := <[ "element-one" := [one] ]> {[ "element-two" := [two] ]} |}.

(** ** A session at the terminal *)

(** Successive visits of menu entry 1, each with the two answers of the
    player; the other entries of the menu leave the game state alone
    (the recipe creator of the developer mode apart, which reloads it). *)
Fixpoint mainSession (gameState : GameState) (attempts : list (string * string))
  : GameState :=
  match attempts with
  | [] => gameState
  | (input1, input2) :: rest =>
      mainSession (mainCombine gameState input1 input2).2 rest
  end.


(** ** Saving the progress *)

(** How [os.WriteFile] ends: the file holds the new content, or the call
    returns an error and leaves the file in some state (untouched,
    truncated, partly written). *)
Inductive WriteOutcome :=
  | Written
  | WriteFailed (remains : ProgressFile).

Inductive SaveError :=
  | SavePathError
  | SaveWriteError.

Definition writeFile (env : Env) (path : string) (f : ProgressFile) : Env :=
  {| embeddedData := embeddedData env;
     diskData := diskData env;
     getProgressFilePath := getProgressFilePath env;
     getTelegramUserProgressPath := getTelegramUserProgressPath env;
     readFile := λ p, if String.eqb p path then f else readFile env p |}.

(** [saveLocalProgress]: resolve the path, encode the discovered list with
    [json.MarshalIndent] (which cannot fail on a slice of strings) and write
    it. [reread l] is the list that [json.Unmarshal] decodes from the
    encoding of [l]; it is [l] itself when the identifiers are valid UTF-8.
    The result is the returned error, if any, and the world after the call;
    the game state is only read. *)
Definition saveLocalProgress (reread : list string → list string)
    (gs : GameState) (env : Env) (outcome : WriteOutcome)
  : option SaveError * Env :=
  match getProgressFilePath env with
  | None => (Some SavePathError, env)
  | Some progressPath =>
      match outcome with
      | Written =>
          (None, writeFile env progressPath (FileWith (reread (Discovered gs))))
      | WriteFailed remains =>
          (Some SaveWriteError, writeFile env progressPath remains)
      end
  end.

Definition saveTelegramProgress (reread : list string → list string)
    (gs : GameState) (userID : Z) (env : Env) (outcome : WriteOutcome)
  : option SaveError * Env :=
  match getTelegramUserProgressPath env userID with
  | None => (Some SavePathError, env)
  | Some progressPath =>
      match outcome with
      | Written =>
          (None, writeFile env progressPath (FileWith (reread (Discovered gs))))
      | WriteFailed remains =>
          (Some SaveWriteError, writeFile env progressPath remains)
      end
  end.

(** One file per identity. *)
Definition perUserEnv : Env :=
  {| embeddedData := goodData; diskData := goodData;
     getProgressFilePath := Some "progress.json";
     getTelegramUserProgressPath :=
       λ userID, Some (if (userID =? 1)%Z then "telegram/1.json" else "telegram/n.json");
     readFile := λ _, NoFile |}.

(** ** The chat bot's combine dialogue *)

(** What the bot sends. *)
Inductive BotMessage :=
  | ErrorLoadingGameState
  | NotDiscoveredTryAnother  (* You haven't discovered this element yet! Try another one. *)
  | EnterSecondElement
  | YouCreatedReply (name : string)
  | CannotBeCombinedReply
  | MainMenu.

Definition withUserStates (tb : TelegramBot) (us : gmap Z UserState) : TelegramBot :=
  {| gameStates := gameStates tb; userStates := us |}.

(** [handleFirstElement]: the messages sent and the bot afterwards. *)
Definition handleFirstElement (tb : TelegramBot) (chatID : Z) (element : string)
    (env : Env) : list BotMessage * TelegramBot :=
  match getUserGameState tb chatID env with
  | Err _ => ([ErrorLoadingGameState], tb)
  | Ok (gameState, tb) =>
      let element := normalizeElementName element in
      if negb (isDiscovered gameState element)
      then ([NotDiscoveredTryAnother], tb)
      else
        ([EnterSecondElement],
         withUserStates tb
           (<[chatID := {| waitingForFirstElement := false;
                           waitingForSecondElement := true;
                           firstElement := element |}]> (userStates tb)))
  end.

(** [handleSecondElement]: the messages sent, the bot afterwards, and the
    discovered list handed to [saveTelegramProgress], if it is called. The
    game state is reached through the pointer held by the cache, so that
    what [combineElements] adds is seen by the cache. *)
Definition handleSecondElement (tb : TelegramBot) (chatID : Z)
    (firstElement secondElement : string) (env : Env)
  : list BotMessage * TelegramBot * option (list string) :=
  match getUserGameState tb chatID env with
  | Err _ => ([ErrorLoadingGameState], tb, None)
  | Ok (gameState, tb) =>
      let secondElement := normalizeElementName secondElement in
      if negb (isDiscovered gameState secondElement)
      then ([NotDiscoveredTryAnother], tb, None)
      else
        let '(result, gameState') :=
          combineElements gameState firstElement secondElement in
        let tb' :=
          {| gameStates := <[chatID := gameState']> (gameStates tb);
             userStates := delete chatID (userStates tb) |} in
        if negb (String.eqb result "")
        then ([YouCreatedReply (Name (elementAt (Elements gameState') result));
               MainMenu],
              tb', Some (Discovered gameState'))
        else ([CannotBeCombinedReply; MainMenu], tb', None)
  end.

(** The reply of the bot that corresponds to a message of the terminal. *)
Definition botReply (m : Message) : list BotMessage :=
  match m with
  | NotYetDiscovered => [NotDiscoveredTryAnother]
  | YouCreated name => [YouCreatedReply name; MainMenu]
  | CannotBeCombined => [CannotBeCombinedReply; MainMenu]
  end.

(** A bot that serves one player whose state is the scenario catalog. *)
Definition steamBot : TelegramBot :=
  {| gameStates := {[ 1%Z := steamGame ]}; userStates := ∅ |}.

(** A request without query parameters. *)
Definition bareRequest : Request := {| Method := "GET"; Query := ∅ |}.

(** ** The data validation test *)

(** Reading a [map[string]bool] at a key: false when the key is absent. *)
Definition seenAt (seen : gmap string bool) (k : string) : bool :=
  default false (seen !! k).

(** The sub-test on element indexes. [indexes] lists the keys of the
    elements map in the order in which the range yields them (Go leaves that
    order open); the result is the list of reported failures, and the
    sub-test passes when it is empty. *)
Fixpoint checkElementIndexes (indexes : list string) (seen : gmap string bool)
  : list string :=
  match indexes with
  | [] => []
  | index :: rest =>
      let lowIndex := strings_ToLower index in
      (if seenAt seen lowIndex
       then ["Duplicate element index (case-insensitive): " +:+ index]
       else []) ++
      checkElementIndexes rest (<[lowIndex := true]> seen)
  end.

(** The sub-test on element names, over the values of the elements map. *)
Fixpoint checkElementNames (elems : list Element) (seen : gmap string bool)
  : list string :=
  match elems with
  | [] => []
  | elem :: rest =>
      (if seenAt seen (Name elem)
       then ["Duplicate element name: " +:+ Name elem]
       else []) ++
      checkElementNames rest (<[Name elem := true]> seen)
  end.

(** The sub-test on recipes, over the entries of the recipes map. *)
Fixpoint checkRecipes (elements : gmap string Element)
    (entries : list (string * string)) (seenCombos : gmap string bool)
  : list string :=
  match entries with
  | [] => []
  | (recipe, result) :: rest =>
      let parts := strings_Split recipe "+" in
      if negb (length parts =? 2)%nat
      then ("Invalid recipe format: " +:+ recipe) ::
           checkRecipes elements rest seenCombos
      else
        let elem1 := strings_TrimSpace (nth 0 parts "") in
        let elem2 := strings_TrimSpace (nth 1 parts "") in
        let comboKey :=
          if negb (String.leb elem1 elem2)
          then elem2 +:+ "+" +:+ elem1
          else elem1 +:+ "+" +:+ elem2 in
        (match elements !! elem1 with
         | Some _ => []
         | None => ["Recipe uses non-existent element: " +:+ elem1]
         end) ++
        (match elements !! elem2 with
         | Some _ => []
         | None => ["Recipe uses non-existent element: " +:+ elem2]
         end) ++
        (match elements !! result with
         | Some _ => []
         | None => ["Recipe result is non-existent element: " +:+ result]
         end) ++
        (if seenAt seenCombos comboKey
         then ["Duplicate recipe combination: " +:+ recipe]
         else []) ++
        checkRecipes elements rest (<[comboKey := true]> seenCombos)
  end.

(** *** Vocabulary for the test *)

(** The combination key the test computes for a recipe key. *)
Definition recipeComboKey (recipe : string) : string :=
  let parts := strings_Split recipe "+" in
  let elem1 := strings_TrimSpace (nth 0 parts "") in
  let elem2 := strings_TrimSpace (nth 1 parts "") in
  if negb (String.leb elem1 elem2)
  then elem2 +:+ "+" +:+ elem1
  else elem1 +:+ "+" +:+ elem2.

(** A recipe entry the test has nothing to say against by itself: two
    parts, both (trimmed) elements of the catalog, and so is the result. *)
Definition recipeWellFormed (elements : gmap string Element)
    (entry : string * string) : Prop :=
  let parts := strings_Split entry.1 "+" in
  length parts = 2 ∧
  is_Some (elements !! strings_TrimSpace (nth 0 parts "")) ∧
  is_Some (elements !! strings_TrimSpace (nth 1 parts "")) ∧
  is_Some (elements !! entry.2).

Fixpoint countPlus (s : string) : nat :=
  match s with
  | EmptyString => 0
  | String c rest => (if Ascii.eqb c "+" then 1 else 0) + countPlus rest
  end.

(** ** Basic facts about the ledger *)

Lemma slices_Contains_elem_of (s : list string) (v : string) :
  slices_Contains s v = true ↔ v ∈ s.
Proof.
  induction s as [|x rest IH]; simpl.
  - split; [discriminate | intros H; inversion H].
  - destruct (String.eqb_spec x v) as [->|Hne].
    + split; [intros _; left | done].
    + rewrite IH. split; [by right|].
      intros H. apply elem_of_cons in H as [Heq|H]; [congruence | done].
Qed.

Lemma slices_Contains_false (s : list string) (v : string) :
  slices_Contains s v = false ↔ v ∉ s.
Proof.
  rewrite <- slices_Contains_elem_of. destruct (slices_Contains s v); naive_solver.
Qed.

Lemma isDiscovered_elem_of gs e : isDiscovered gs e = true ↔ e ∈ Discovered gs.
Proof. apply slices_Contains_elem_of. Qed.

Lemma addDiscovered_catalog gs e :
  Elements (addDiscovered gs e) = Elements gs ∧
  Recipes (addDiscovered gs e) = Recipes gs ∧
  Impossible (addDiscovered gs e) = Impossible gs.
Proof. unfold addDiscovered. by destruct (negb _). Qed.

Lemma addDiscovered_known gs e :
  e ∈ Discovered gs → addDiscovered gs e = gs.
Proof.
  intros H. unfold addDiscovered, isDiscovered.
  apply slices_Contains_elem_of in H. by rewrite H.
Qed.

Lemma addDiscovered_fresh gs e :
  e ∉ Discovered gs →
  addDiscovered gs e = withDiscovered gs (Discovered gs ++ [e]).
Proof.
  intros H. unfold addDiscovered, isDiscovered.
  apply slices_Contains_false in H. by rewrite H.
Qed.

Lemma addDiscovered_elem_of gs e x :
  x ∈ Discovered (addDiscovered gs e) ↔ x ∈ Discovered gs ∨ x = e.
Proof.
  destruct (decide (e ∈ Discovered gs)) as [Hin|Hout].
  - rewrite addDiscovered_known by done.
    split; [by left | by intros [?| ->]].
  - rewrite addDiscovered_fresh by done. simpl.
    rewrite elem_of_app, list_elem_of_singleton. done.
Qed.

Lemma addDiscovered_idem gs e :
  addDiscovered (addDiscovered gs e) e = addDiscovered gs e.
Proof.
  apply addDiscovered_known, addDiscovered_elem_of. by right.
Qed.

Lemma addDiscovered_NoDup gs e :
  NoDup (Discovered gs) → NoDup (Discovered (addDiscovered gs e)).
Proof.
  intros Hnd. destruct (decide (e ∈ Discovered gs)) as [Hin|Hout].
  - by rewrite addDiscovered_known.
  - rewrite addDiscovered_fresh by done. simpl.
    apply NoDup_app. split; [done|]. split.
    + intros x Hx Hxe. apply list_elem_of_singleton in Hxe. congruence.
    + apply NoDup_singleton.
Qed.

Lemma addDiscovered_length gs e :
  length (Discovered gs) ≤ length (Discovered (addDiscovered gs e)) ≤
  S (length (Discovered gs)).
Proof.
  destruct (decide (e ∈ Discovered gs)) as [Hin|Hout].
  - rewrite addDiscovered_known by done. lia.
  - rewrite addDiscovered_fresh by done. simpl. rewrite length_app. simpl. lia.
Qed.

(** The three ways [combineElements] can go. *)
Lemma combineElements_cases gs a b :
  (∃ r, Recipes gs !! (a +:+ "+" +:+ b) = Some r ∧
        combineElements gs a b = (r, addDiscovered gs r)) ∨
  (∃ r, Recipes gs !! (a +:+ "+" +:+ b) = None ∧
        Recipes gs !! (b +:+ "+" +:+ a) = Some r ∧
        combineElements gs a b = (r, addDiscovered gs r)) ∨
  (Recipes gs !! (a +:+ "+" +:+ b) = None ∧
   Recipes gs !! (b +:+ "+" +:+ a) = None ∧
   combineElements gs a b = ("", gs)).
Proof.
  unfold combineElements.
  destruct (Recipes gs !! (a +:+ "+" +:+ b)) as [r|] eqn:H1; [left; eauto|].
  destruct (Recipes gs !! (b +:+ "+" +:+ a)) as [r|] eqn:H2; right; [left|right]; eauto.
Qed.

Lemma combineElements_catalog gs a b :
  Recipes (combineElements gs a b).2 = Recipes gs ∧
  Elements (combineElements gs a b).2 = Elements gs.
Proof.
  destruct (combineElements_cases gs a b) as [(r & _ & ->)|[(r & _ & _ & ->)|(_ & _ & ->)]];
    simpl; try done; by destruct (addDiscovered_catalog gs r) as (-> & -> & _).
Qed.

(** [combineElements] itself never looks at [Discovered] before the lookup:
    the discovery rule is enforced by its callers. *)
Remark combineElements_does_not_gate :
  ("mud" ∉ Discovered lockedGame) ∧
  (combineElements lockedGame "mud" "rain").1 = "swamp" ∧
  Discovered (combineElements lockedGame "mud" "rain").2 = bootstrap ++ ["swamp"].
Proof.
  split; [|split; vm_compute; reflexivity].
  apply slices_Contains_false. reflexivity.
Qed.

(** ** The combination resolver *)

(** C1. When both operands are discovered and the recipe table has an entry
    under "a+b" or under "b+a", [combineElements gs a b] returns the result
    stored under the first of these two keys that is present, and that result
    is discovered afterwards (nothing else is added). *)
Theorem combineElements_recipe_result (gs : GameState) (a b : string) :
  a ∈ Discovered gs → b ∈ Discovered gs →
  is_Some (Recipes gs !! (a +:+ "+" +:+ b)) ∨
  is_Some (Recipes gs !! (b +:+ "+" +:+ a)) →
  ∃ r,
    (Recipes gs !! (a +:+ "+" +:+ b) = Some r ∨
     (Recipes gs !! (a +:+ "+" +:+ b) = None ∧
      Recipes gs !! (b +:+ "+" +:+ a) = Some r)) ∧
    (combineElements gs a b).1 = r ∧
    r ∈ Discovered (combineElements gs a b).2 ∧
    (∀ x, x ∈ Discovered (combineElements gs a b).2 ↔ x ∈ Discovered gs ∨ x = r).
Proof.
  intros _ _ Hrec.
  destruct (combineElements_cases gs a b)
    as [(r & H1 & ->)|[(r & H1 & H2 & ->)|(H1 & H2 & _)]].
  - exists r. simpl. split_and!; [by left | done | | ].
    + apply addDiscovered_elem_of. by right.
    + intros x. apply addDiscovered_elem_of.
  - exists r. simpl. split_and!; [by right | done | | ].
    + apply addDiscovered_elem_of. by right.
    + intros x. apply addDiscovered_elem_of.
  - rewrite H1, H2 in Hrec. destruct Hrec as [[? ?]|[? ?]]; discriminate.
Qed.

Lemma combineElements_recipe_result_witness :
  ("water" ∈ Discovered steamGame ∧ "fire" ∈ Discovered steamGame) ∧
  ∃ r,
    (Recipes steamGame !! ("fire" +:+ "+" +:+ "water") = Some r ∨
     (Recipes steamGame !! ("fire" +:+ "+" +:+ "water") = None ∧
      Recipes steamGame !! ("water" +:+ "+" +:+ "fire") = Some r)) ∧
    (combineElements steamGame "fire" "water").1 = r ∧
    r ∈ Discovered (combineElements steamGame "fire" "water").2 ∧
    (∀ x, x ∈ Discovered (combineElements steamGame "fire" "water").2 ↔
          x ∈ Discovered steamGame ∨ x = r).
Proof.
  assert (Hw : "water" ∈ Discovered steamGame)
    by (apply slices_Contains_elem_of; reflexivity).
  assert (Hf : "fire" ∈ Discovered steamGame)
    by (apply slices_Contains_elem_of; reflexivity).
  split; [by split|].
  apply (combineElements_recipe_result steamGame "fire" "water" Hf Hw).
  right. exists "steam". vm_compute. reflexivity.
Defined.

(** C2. In the terminal loop a combine attempt whose (normalised) operands
    are not both discovered is answered by the rejection message and leaves
    the game state, hence the discovered list, as it was. *)
Theorem mainCombine_undiscovered (gs : GameState) (input1 input2 : string) :
  (normalizeElementName input1 ∉ Discovered gs) ∨
  (normalizeElementName input2 ∉ Discovered gs) →
  mainCombine gs input1 input2 = (NotYetDiscovered, gs).
Proof.
  intros H. unfold mainCombine, isDiscovered.
  destruct H as [H|H]; apply slices_Contains_false in H; rewrite H; simpl.
  - reflexivity.
  - by rewrite orb_true_r.
Qed.

Lemma mainCombine_undiscovered_witness :
  ((normalizeElementName "Mud" ∉ Discovered lockedGame) ∨
   (normalizeElementName "rain" ∉ Discovered lockedGame)) ∧
  mainCombine lockedGame "Mud" "rain" = (NotYetDiscovered, lockedGame).
Proof.
  assert (H : normalizeElementName "Mud" ∉ Discovered lockedGame)
    by (apply slices_Contains_false; reflexivity).
  split; [by left|].
  apply (mainCombine_undiscovered lockedGame "Mud" "rain"). by left.
Defined.

(** C4 (as the code has it). [combineElements gs a b] and
    [combineElements gs b a] return the same value and leave the same state
    whenever the recipe table does not store the two orderings of the pair
    with different results. *)
Theorem combineElements_symmetric (gs : GameState) (a b : string) :
  (∀ r1 r2, Recipes gs !! (a +:+ "+" +:+ b) = Some r1 →
            Recipes gs !! (b +:+ "+" +:+ a) = Some r2 → r1 = r2) →
  combineElements gs a b = combineElements gs b a.
Proof.
  intros Hagree. unfold combineElements.
  destruct (Recipes gs !! (a +:+ "+" +:+ b)) as [r1|] eqn:H1;
    destruct (Recipes gs !! (b +:+ "+" +:+ a)) as [r2|] eqn:H2; try reflexivity.
  by rewrite (Hagree r1 r2).
Qed.

Lemma combineElements_symmetric_witness :
  (∀ r1 r2, Recipes steamGame !! ("water" +:+ "+" +:+ "fire") = Some r1 →
            Recipes steamGame !! ("fire" +:+ "+" +:+ "water") = Some r2 → r1 = r2) ∧
  combineElements steamGame "water" "fire" = combineElements steamGame "fire" "water".
Proof.
  assert (H : ∀ r1 r2,
             Recipes steamGame !! ("water" +:+ "+" +:+ "fire") = Some r1 →
             Recipes steamGame !! ("fire" +:+ "+" +:+ "water") = Some r2 → r1 = r2).
  { intros r1 r2 _ H2. vm_compute in H2. discriminate. }
  split; [exact H|].
  apply (combineElements_symmetric steamGame "water" "fire" H).
Defined.

(** C4 does not hold for every recipe table: with both orderings stored under
    different results the two calls return different values. *)
Lemma combineElements_not_symmetric :
  (combineElements twoWayGame "a" "b").1 = "x" ∧
  (combineElements twoWayGame "b" "a").1 = "y" ∧
  combineElements twoWayGame "a" "b" ≠ combineElements twoWayGame "b" "a".
Proof.
  assert (H1 : (combineElements twoWayGame "a" "b").1 = "x") by (vm_compute; reflexivity).
  assert (H2 : (combineElements twoWayGame "b" "a").1 = "y") by (vm_compute; reflexivity).
  split_and!; [done..|].
  intros Heq. rewrite Heq, H2 in H1. discriminate.
Qed.

(** C5. A second call of [combineElements] with the same operands, right
    after the first, returns the same value and leaves the state (and so the
    discovered list) exactly as the first call left it. *)
Theorem combineElements_twice (gs : GameState) (a b : string) :
  (combineElements (combineElements gs a b).2 a b).1 = (combineElements gs a b).1 ∧
  Discovered (combineElements (combineElements gs a b).2 a b).2 =
    Discovered (combineElements gs a b).2.
Proof.
  destruct (combineElements_cases gs a b)
    as [(r & H1 & Hc)|[(r & H1 & H2 & Hc)|(H1 & H2 & Hc)]]; rewrite Hc; simpl.
  - unfold combineElements.
    destruct (addDiscovered_catalog gs r) as (_ & -> & _). rewrite H1. simpl.
    by rewrite addDiscovered_idem.
  - unfold combineElements.
    destruct (addDiscovered_catalog gs r) as (_ & -> & _). rewrite H1, H2. simpl.
    by rewrite addDiscovered_idem.
  - by rewrite Hc.
Qed.

(** C10. If the discovered list has no duplicates, it has none after
    [addDiscovered] and none after [combineElements], and either call
    lengthens it by at most one entry (and never shortens it). *)
Theorem distinctness_preserved (gs : GameState) (e a b : string) :
  NoDup (Discovered gs) →
  (NoDup (Discovered (addDiscovered gs e)) ∧
   length (Discovered gs) ≤ length (Discovered (addDiscovered gs e))
     ≤ S (length (Discovered gs))) ∧
  (NoDup (Discovered (combineElements gs a b).2) ∧
   length (Discovered gs) ≤ length (Discovered (combineElements gs a b).2)
     ≤ S (length (Discovered gs))).
Proof.
  intros Hnd. split.
  - split; [by apply addDiscovered_NoDup | apply addDiscovered_length].
  - destruct (combineElements_cases gs a b)
      as [(r & _ & ->)|[(r & _ & _ & ->)|(_ & _ & ->)]]; simpl.
    + split; [by apply addDiscovered_NoDup | apply addDiscovered_length].
    + split; [by apply addDiscovered_NoDup | apply addDiscovered_length].
    + split; [done | lia].
Qed.

Lemma distinctness_preserved_witness :
  NoDup (Discovered steamGame) ∧
  (NoDup (Discovered (addDiscovered steamGame "steam")) ∧
   length (Discovered steamGame) ≤ length (Discovered (addDiscovered steamGame "steam"))
     ≤ S (length (Discovered steamGame))) ∧
  (NoDup (Discovered (combineElements steamGame "water" "fire").2) ∧
   length (Discovered steamGame)
     ≤ length (Discovered (combineElements steamGame "water" "fire").2)
     ≤ S (length (Discovered steamGame))).
Proof.
  assert (H : NoDup (Discovered steamGame)) by (apply (bool_decide_unpack (NoDup (Discovered steamGame))); exact I).
  split; [exact H|].
  apply (distinctness_preserved steamGame "steam" "water" "fire" H).
Defined.

(** The two scenarios of the terminal front-end: a new player combines
    "Water" and "FIRE", then earth and wind. *)
Example mainCombine_water_fire :
  (mainCombine steamGame "Water" "FIRE").1 = YouCreated "Steam" ∧
  Discovered (mainCombine steamGame "Water" "FIRE").2 =
    ["water"; "fire"; "earth"; "wind"; "steam"].
Proof. split; vm_compute; reflexivity. Qed.

Example mainCombine_earth_wind :
  mainCombine steamGame "earth" "wind" = (CannotBeCombined, steamGame).
Proof. vm_compute. reflexivity. Qed.

(** ** Initialisation of the ledger *)

Lemma seedIfEmpty_seededFrom (loaded : list string) :
  seededFrom loaded (seedIfEmpty loaded).
Proof.
  unfold seededFrom, seedIfEmpty. destruct loaded as [|x l]; simpl.
  - split_and!; [done | done |]. split; [by left | done].
  - split_and!; [done | done |]. split; [by right | by intros [?|?]].
Qed.

Lemma rbind_Ok {A B} (r : result A) (k : A → result B) (b : B) :
  rbind r k = Ok b → ∃ a, r = Ok a ∧ k a = Ok b.
Proof. destruct r as [e|a]; simpl; [discriminate | eauto]. Qed.

Lemma loadGameState_Ok (dev : bool) (env : Env) (gs : GameState) :
  loadGameState dev env = Ok gs →
  ∃ path, getProgressFilePath env = Some path ∧
          Discovered gs = seedIfEmpty (loadDiscovered (readFile env path)).
Proof.
  unfold loadGameState. intros H.
  apply rbind_Ok in H as ([[els rec] imp] & _ & H).
  destruct (getProgressFilePath env) as [path|]; [|discriminate].
  exists path. split; [done|]. by injection H as <-.
Qed.

Lemma getUserGameState_fresh_Ok tb userID env gs tb' :
  gameStates tb !! userID = None →
  getUserGameState tb userID env = Ok (gs, tb') →
  ∃ path, getTelegramUserProgressPath env userID = Some path ∧
          Discovered gs = seedIfEmpty (loadDiscovered (readFile env path)) ∧
          gameStates tb' !! userID = Some gs.
Proof.
  unfold getUserGameState. intros -> H.
  apply rbind_Ok in H as (els & _ & H).
  apply rbind_Ok in H as (rec & _ & H).
  destruct (getTelegramUserProgressPath env userID) as [path|]; [|discriminate].
  exists path. injection H as <- <-. simpl.
  split_and!; [done | done | apply lookup_insert_eq].
Qed.

(** C6 (as the code has it). After a successful initialisation, by
    [loadGameState] or by [getUserGameState] for an identity not yet cached,
    the discovered list is exactly water, fire, earth, wind when the loaded
    list is empty, and is the loaded list itself otherwise; so the bootstrap
    elements are all discovered exactly when the loaded list is empty or
    already holds them. *)
Theorem initial_discovered :
  (∀ dev env gs,
     loadGameState dev env = Ok gs →
     ∃ path, getProgressFilePath env = Some path ∧
             seededFrom (loadDiscovered (readFile env path)) (Discovered gs)) ∧
  (∀ tb userID env gs tb',
     gameStates tb !! userID = None →
     getUserGameState tb userID env = Ok (gs, tb') →
     ∃ path, getTelegramUserProgressPath env userID = Some path ∧
             seededFrom (loadDiscovered (readFile env path)) (Discovered gs)).
Proof.
  split.
  - intros dev env gs H. apply loadGameState_Ok in H as (path & Hp & ->).
    exists path. split; [done | apply seedIfEmpty_seededFrom].
  - intros tb userID env gs tb' Hnew H.
    apply getUserGameState_fresh_Ok in H as (path & Hp & -> & _); [|done].
    exists path. split; [done | apply seedIfEmpty_seededFrom].
Qed.

Lemma initial_discovered_witness :
  loadGameState false newPlayerEnv =
    Ok (withDiscovered steamGame bootstrap) ∧
  ∃ path, getProgressFilePath newPlayerEnv = Some path ∧
          seededFrom (loadDiscovered (readFile newPlayerEnv path))
                     (Discovered (withDiscovered steamGame bootstrap)).
Proof.
  assert (H : loadGameState false newPlayerEnv = Ok (withDiscovered steamGame bootstrap))
    by reflexivity.
  split; [exact H|].
  exact (proj1 initial_discovered false newPlayerEnv _ H).
Defined.

(** C6 does not hold for every progress file: one that lists only steam is
    kept as it is, and water is not discovered after initialisation. *)
Lemma initial_discovered_not_always_seeded :
  ∃ gs, loadGameState false steamOnlyEnv = Ok gs ∧
        Discovered gs = ["steam"] ∧
        ¬ (bootstrap ⊆ Discovered gs).
Proof.
  eexists. split; [reflexivity|]. simpl. split; [reflexivity|].
  intros Hsub.
  assert (Hw : "water" ∈ ["steam"]).
  { apply Hsub. apply slices_Contains_elem_of. reflexivity. }
  apply slices_Contains_elem_of in Hw. discriminate.
Qed.

(** C7 (as the code has it). With the catalog loaded and the path of the
    progress file resolved, a missing or unreadable progress file (nothing
    loaded) yields the seeded new-player state; a catalog source that is
    missing or malformed yields an error and no state; and so does a
    progress path that cannot be resolved. *)
Theorem loadGameState_outcomes (dev : bool) (env : Env) :
  (catalogLoads (selectedData dev env) = true →
   ∀ path, getProgressFilePath env = Some path →
           loadDiscovered (readFile env path) = [] →
           ∃ gs, loadGameState dev env = Ok gs ∧ Discovered gs = bootstrap ∧
                 Holds (Elements gs) = elementsJSON (selectedData dev env) ∧
                 Holds (Recipes gs) = recipesJSON (selectedData dev env) ∧
                 Holds (Impossible gs) = impossibleJSON (selectedData dev env)) ∧
  (catalogLoads (selectedData dev env) = false →
   ∃ e, loadGameState dev env = Err e ∧ e ≠ ConfigDirError) ∧
  (catalogLoads (selectedData dev env) = true →
   getProgressFilePath env = None →
   loadGameState dev env = Err ConfigDirError).
Proof.
  unfold loadGameState, catalogLoads, selectedData.
  destruct dev;
    [set (d := diskData env) | set (d := embeddedData env)];
    destruct (elementsJSON d) as [| |els];
    destruct (recipesJSON d) as [| |rec];
    destruct (impossibleJSON d) as [| |imp]; simpl;
    (split_and!;
     [ try discriminate; intros _ path -> ->; simpl; eauto 10
     | try discriminate; intros _; eauto
     | try discriminate; intros _ ->; reflexivity ]).
Qed.

Lemma loadGameState_outcomes_witness :
  (catalogLoads (selectedData false newPlayerEnv) = true ∧
   getProgressFilePath newPlayerEnv = Some "progress.json" ∧
   loadDiscovered (readFile newPlayerEnv "progress.json") = []) ∧
  ∃ gs, loadGameState false newPlayerEnv = Ok gs ∧ Discovered gs = bootstrap ∧
        Holds (Elements gs) = elementsJSON (selectedData false newPlayerEnv) ∧
        Holds (Recipes gs) = recipesJSON (selectedData false newPlayerEnv) ∧
        Holds (Impossible gs) = impossibleJSON (selectedData false newPlayerEnv).
Proof.
  split; [split_and!; reflexivity|].
  apply (proj1 (loadGameState_outcomes false newPlayerEnv) eq_refl
           "progress.json" eq_refl eq_refl).
Defined.

(** C7 does not hold in every environment: locating the progress file is part of
    loading it, and when that fails the initialisation fails although the
    whole catalog loaded. *)
Lemma loadGameState_fails_without_config_dir :
  catalogLoads (selectedData false noConfigDirEnv) = true ∧
  loadGameState false noConfigDirEnv = Err ConfigDirError.
Proof. split; reflexivity. Qed.

Example loadGameState_malformed_recipes :
  loadGameState false badRecipesEnv = Err (FailedToLoad "recipes").
Proof. reflexivity. Qed.

Example getUserGameState_new_player :
  ∃ gs tb, getUserGameState newBot 7 newPlayerEnv = Ok (gs, tb) ∧
           Discovered gs = bootstrap ∧ gameStates tb !! 7%Z = Some gs.
Proof.
  eexists _, _. split; [reflexivity|]. split; [reflexivity|].
  apply lookup_insert_eq.
Qed.

(** ** The stateless combine endpoint *)



(** ** Identifier normalisation *)

Ltac each_byte c := destruct c as [[] [] [] [] [] [] [] []]; try reflexivity; try discriminate.

Lemma normByte_lower (c : ascii) :
  (if Ascii.eqb (toLowerByte c) " " then "-"%char else toLowerByte c) = normByte c.
Proof. each_byte c. Qed.


Lemma normByte_notSpace (c : ascii) :
  isSpaceByte c = false → isSpaceByte (normByte c) = false.
Proof. each_byte c. Qed.


Lemma mapBytes_compose (f g : ascii → ascii) (s : string) :
  mapBytes g (mapBytes f s) = mapBytes (λ c, g (f c)) s.
Proof. induction s as [|c s IH]; simpl; [done | by rewrite IH]. Qed.

Lemma mapBytes_ext (f g : ascii → ascii) (s : string) :
  (∀ c, f c = g c) → mapBytes f s = mapBytes g s.
Proof. intros H. induction s as [|c s IH]; simpl; [done | by rewrite H, IH]. Qed.

Lemma normalizeElementName_bytes (s : string) :
  normalizeElementName s = mapBytes normByte (strings_TrimSpace s).
Proof.
  unfold normalizeElementName, strings_ReplaceAll, strings_ToLower.
  rewrite mapBytes_compose. apply mapBytes_ext, normByte_lower.
Qed.


Lemma firstByte_mapBytes f s : firstByte (mapBytes f s) = f <$> firstByte s.
Proof. by destruct s. Qed.

Lemma lastByte_mapBytes f s : lastByte (mapBytes f s) = f <$> lastByte s.
Proof.
  induction s as [|c s IH]; simpl; [done|].
  destruct s as [|c' s]; simpl in *; [done | exact IH].
Qed.

Lemma append_String (c : ascii) (a b : string) :
  String c a +:+ b = String c (a +:+ b).
Proof. reflexivity. Qed.


Lemma trimLeft_first (s : string) : notSpace (firstByte (trimLeft s)) = true.
Proof.
  induction s as [|c s IH]; simpl; [done|].
  destruct (isSpaceByte c) eqn:Hc; [done | simpl; by rewrite Hc].
Qed.


Lemma trimRight_last (s : string) : notSpace (lastByte (trimRight s)) = true.
Proof.
  induction s as [|c s IH]; simpl; [done|].
  destruct (trimRight s) as [|c' t] eqn:Ht.
  - destruct (isSpaceByte c) eqn:Hc; simpl; [done | by rewrite Hc].
  - exact IH.
Qed.

Lemma trimRight_first (s : string) :
  notSpace (firstByte s) = true → notSpace (firstByte (trimRight s)) = true.
Proof.
  destruct s as [|c s]; simpl; [done|]. intros Hc.
  destruct (trimRight s); [|done].
  apply negb_true_iff in Hc. rewrite Hc. simpl. by rewrite Hc.
Qed.

Lemma trimLeft_id (s : string) : notSpace (firstByte s) = true → trimLeft s = s.
Proof.
  destruct s as [|c s]; simpl; [done|]. intros Hc.
  apply negb_true_iff in Hc. by rewrite Hc.
Qed.

Lemma trimRight_id (s : string) : notSpace (lastByte s) = true → trimRight s = s.
Proof.
  induction s as [|c s IH]; simpl; [done|].
  destruct s as [|c' s].
  - simpl. intros Hc. apply negb_true_iff in Hc. by rewrite Hc.
  - intros H. rewrite (IH H). reflexivity.
Qed.

Lemma strings_TrimSpace_trimmed (s : string) : trimmed (strings_TrimSpace s) = true.
Proof.
  unfold trimmed, strings_TrimSpace.
  rewrite trimRight_first by apply trimLeft_first.
  by rewrite trimRight_last.
Qed.

Lemma strings_TrimSpace_id (s : string) : trimmed s = true → strings_TrimSpace s = s.
Proof.
  unfold trimmed, strings_TrimSpace. intros [H1 H2]%andb_true_iff.
  rewrite trimLeft_id by done. by apply trimRight_id.
Qed.

Lemma trimmed_mapBytes_normByte (t : string) :
  trimmed t = true → trimmed (mapBytes normByte t) = true.
Proof.
  unfold trimmed. rewrite firstByte_mapBytes, lastByte_mapBytes.
  intros [H1 H2]%andb_true_iff. apply andb_true_iff.
  split.
  - destruct (firstByte t) as [c|]; simpl in *; [|done].
    apply negb_true_iff, normByte_notSpace. by apply negb_true_iff.
  - destruct (lastByte t) as [c|]; simpl in *; [|done].
    apply negb_true_iff, normByte_notSpace. by apply negb_true_iff.
Qed.




(** ** The untried-combination enumerator *)

Lemma strings_Split_noPlus (b : string) :
  noPlus b = true → strings_Split b "+" = [b].
Proof.
  induction b as [|c b IH]; simpl; [done|].
  intros [Hc Hb]%andb_true_iff. apply negb_true_iff in Hc.
  rewrite Hc, (IH Hb). reflexivity.
Qed.

Lemma strings_Split_combo (a b : string) :
  noPlus a = true → noPlus b = true →
  strings_Split (a +:+ "+" +:+ b) "+" = [a; b].
Proof.
  intros Ha Hb. induction a as [|c a IH]; simpl.
  - by rewrite strings_Split_noPlus.
  - simpl in Ha. apply andb_true_iff in Ha as [Hc Ha]. apply negb_true_iff in Hc.
    rewrite Hc, (IH Ha). reflexivity.
Qed.

Lemma isImpossible_combo (gs : GameState) (a b : string) :
  noPlus a = true → noPlus b = true →
  isImpossible gs (a +:+ "+" +:+ b) =
    Some (slices_Contains (Impossible gs) (a +:+ "+" +:+ b) ||
          slices_Contains (Impossible gs) (b +:+ "+" +:+ a)).
Proof.
  intros Ha Hb. unfold isImpossible. by rewrite strings_Split_combo.
Qed.

Lemma comboStep_untried (gs : GameState) (a b : string) (combos : list string) :
  noPlus a = true → noPlus b = true →
  comboStep gs a b combos =
    Some (combos ++ if untried gs (a, b) then [renderPair gs (a, b)] else []).
Proof.
  intros Ha Hb. unfold comboStep, untried, renderPair. simpl.
  destruct (Recipes gs !! (a +:+ "+" +:+ b)) as [r1|] eqn:H1.
  { rewrite bool_decide_eq_true_2 by eauto. simpl. by rewrite app_nil_r. }
  rewrite (bool_decide_eq_false_2 (is_Some None)) by (intros [? ?]; discriminate).
  destruct (Recipes gs !! (b +:+ "+" +:+ a)) as [r2|] eqn:H2.
  { rewrite bool_decide_eq_true_2 by eauto. simpl. by rewrite app_nil_r. }
  rewrite (bool_decide_eq_false_2 (is_Some None)) by (intros [? ?]; discriminate).
  rewrite isImpossible_combo by done. simpl.
  destruct (slices_Contains (Impossible gs) (a +:+ "+" +:+ b)); simpl;
    [by rewrite app_nil_r|].
  destruct (slices_Contains (Impossible gs) (b +:+ "+" +:+ a)); simpl;
    [by rewrite app_nil_r | done].
Qed.

Lemma innerLoop_untried (gs : GameState) (a : string) (rest combos : list string) :
  noPlus a = true → Forall (λ k, noPlus k = true) rest →
  innerLoop gs a rest combos =
    Some (combos ++ (renderPair gs <$>
                       filter (λ p, untried gs p = true) (pair a <$> rest))).
Proof.
  intros Ha Hrest. revert combos.
  induction Hrest as [|b rest Hb Hrest IH]; intros combos; simpl.
  - by rewrite app_nil_r.
  - rewrite comboStep_untried by done. simpl. rewrite IH.
    rewrite filter_cons. destruct (untried gs (a, b)) eqn:Hu.
    + rewrite decide_True by done. simpl. by rewrite <- app_assoc.
    + rewrite decide_False by (by intros ?). by rewrite app_nil_r.
Qed.

Lemma outerLoop_untried (gs : GameState) (l combos : list string) :
  Forall (λ k, noPlus k = true) l →
  outerLoop gs l combos =
    Some (combos ++ (renderPair gs <$>
                       filter (λ p, untried gs p = true) (orderedPairs l))).
Proof.
  intros Hl. revert combos.
  induction Hl as [|a rest Ha Hrest IH]; intros combos.
  - simpl. by rewrite app_nil_r.
  - change (outerLoop gs (a :: rest) combos)
      with (innerLoop gs a (a :: rest) combos ≫= outerLoop gs rest).
    rewrite innerLoop_untried by (done || by constructor).
    cbn [mbind option_bind]. rewrite IH.
    change (orderedPairs (a :: rest))
      with ((pair a <$> a :: rest) ++ orderedPairs rest).
    rewrite filter_app, fmap_app, <- app_assoc. reflexivity.
Qed.

Lemma elem_of_orderedPairs (l : list string) (a b : string) :
  (a, b) ∈ orderedPairs l ↔
  ∃ i j, i ≤ j ∧ l !! i = Some a ∧ l !! j = Some b.
Proof.
  induction l as [|x rest IH].
  - split; [intros H; inversion H | intros (i & j & _ & H & _); discriminate].
  - change (orderedPairs (x :: rest))
      with ((pair x <$> x :: rest) ++ orderedPairs rest).
    rewrite elem_of_app, IH. split.
    + intros [H|(i & j & Hij & Hi & Hj)].
      * apply (list_elem_of_fmap (pair x)) in H as (y & [= -> ->] & Hy).
        apply list_elem_of_lookup in Hy as (j & Hj).
        exists 0, j. split_and!; [lia | done | done].
      * exists (S i), (S j). split_and!; [lia | done | done].
    + intros (i & j & Hij & Hi & Hj). destruct i as [|i].
      * left. injection Hi as ->.
        apply (list_elem_of_fmap (pair a)). exists b. split; [done|].
        by apply list_elem_of_lookup_2 in Hj.
      * right. destruct j as [|j]; [lia|].
        exists i, j. split_and!; [lia | done | done].
Qed.

Lemma allElementNames_elem_of (gs : GameState) (k : string) :
  k ∈ allElementNames gs ↔ is_Some (Elements gs !! k).
Proof.
  unfold allElementNames, sort_Strings. rewrite merge_sort_Permutation.
  rewrite list_elem_of_fmap. split.
  - intros ([k' e] & -> & H). apply elem_of_map_to_list in H. simpl. eauto.
  - intros [e H]. exists (k, e). split; [done|]. by apply elem_of_map_to_list.
Qed.

Lemma allElementNames_sorted (gs : GameState) :
  StronglySorted String.le (allElementNames gs) ∧ NoDup (allElementNames gs).
Proof.
  unfold allElementNames, sort_Strings. split.
  - apply StronglySorted_merge_sort; apply _.
  - rewrite merge_sort_Permutation. apply NoDup_fst_map_to_list.
Qed.

Lemma orderedPairs_sorted (l : list string) :
  StronglySorted String.le l → NoDup l → StronglySorted pairLe (orderedPairs l).
Proof.
  induction l as [|x rest IH]; intros Hs Hnd; [constructor|].
  change (orderedPairs (x :: rest))
    with ((pair x <$> x :: rest) ++ orderedPairs rest).
  pose proof Hs as Hs'.
  apply StronglySorted_cons in Hs' as [Hx Hrest].
  apply NoDup_cons in Hnd as [Hfresh Hnd].
  apply StronglySorted_app_2.
  - intros p [a' b'] Hp Hq.
    apply (list_elem_of_fmap (pair x)) in Hp as (b & -> & _).
    apply elem_of_orderedPairs in Hq as (i & _ & _ & Hi & _).
    apply list_elem_of_lookup_2 in Hi.
    left. simpl. split.
    + by apply (proj1 (Forall_forall _ _) Hx).
    + intros ->. done.
  - apply (StronglySorted_fmap (pair x) String.le pairLe); [|done].
    intros y z Hyz. by right.
  - by apply IH.
Qed.

Lemma strings_Split_length (s : string) (sep : ascii) :
  1 ≤ length (strings_Split s sep).
Proof.
  induction s as [|c s IH]; simpl; [lia|].
  destruct (Ascii.eqb c sep); simpl; [lia|].
  destruct (strings_Split s sep); simpl in *; lia.
Qed.

Lemma strings_Split_combo_length (a b : string) :
  2 ≤ length (strings_Split (a +:+ "+" +:+ b) "+").
Proof.
  induction a as [|c a IH].
  - change (2 ≤ length (EmptyString :: strings_Split b "+")).
    pose proof (strings_Split_length b "+"). simpl. lia.
  - rewrite append_String. remember (a +:+ "+" +:+ b) as s eqn:Hs.
    clear Hs. simpl.
    destruct (Ascii.eqb c "+"); simpl; [lia|].
    destruct (strings_Split s "+"); simpl in *; lia.
Qed.

Lemma comboStep_total (gs : GameState) (a b : string) (combos : list string) :
  is_Some (comboStep gs a b combos).
Proof.
  unfold comboStep, isImpossible.
  destruct (Recipes gs !! (a +:+ "+" +:+ b)); [eauto|].
  destruct (Recipes gs !! (b +:+ "+" +:+ a)); [eauto|].
  pose proof (strings_Split_combo_length a b) as Hlen.
  remember (a +:+ "+" +:+ b) as s eqn:Hs. clear Hs.
  destruct (strings_Split s "+") as [|e0 [|e1 rest]];
    simpl in *; [lia | lia |].
  destruct (_ || _); eauto.
Qed.

Lemma innerLoop_total (gs : GameState) (a : string) (rest combos : list string) :
  is_Some (innerLoop gs a rest combos).
Proof.
  revert combos. induction rest as [|b rest IH]; intros combos; simpl; [eauto|].
  destruct (comboStep_total gs a b combos) as [combos' ->]. apply IH.
Qed.

(** The enumerator never runs into the index panic of [isImpossible]: every
    combo it builds contains the separator. *)
Lemma getUntriedCombos_total (gs : GameState) : is_Some (getUntriedCombos gs).
Proof.
  unfold getUntriedCombos. generalize (@nil string) as combos.
  induction (allElementNames gs) as [|a rest IH]; intros combos; [simpl; eauto|].
  change (outerLoop gs (a :: rest) combos)
    with (innerLoop gs a (a :: rest) combos ≫= outerLoop gs rest).
  destruct (innerLoop_total gs a (a :: rest) combos) as [combos' ->].
  apply IH.
Qed.

Lemma getUntriedCombos_abc :
  getUntriedCombos abcGame = Some ["A + A"; "B + B"; "B + C"; "C + C"].
Proof. vm_compute. reflexivity. Qed.

(** C3 (as the code has it). For a catalog whose identifiers hold no "+",
    [getUntriedCombos] returns, row by row over the sorted duplicate-free
    identifier list (so ordered by first, then by second identifier),
    exactly the pairs of positions i <= j for which neither ordering is a
    recipe key and neither ordering is listed as impossible, each rendered
    with the display names of its two elements. For the
    catalog A, B, C with recipe A+B=D and impossibility A+C it returns
    A + A, B + B, B + C, C + C. *)
Theorem getUntriedCombos_enumerates :
  (∀ gs : GameState,
     (∀ k, is_Some (Elements gs !! k) → noPlus k = true) →
     let ids := allElementNames gs in
     (StronglySorted String.le ids ∧ NoDup ids ∧
      ∀ k, k ∈ ids ↔ is_Some (Elements gs !! k)) ∧
     getUntriedCombos gs = Some (untriedSpec gs) ∧
     untriedSpec gs =
       (renderPair gs <$> filter (λ p, untried gs p = true) (orderedPairs ids)) ∧
     (∀ a b, (a, b) ∈ orderedPairs ids ↔
             ∃ i j, i ≤ j ∧ ids !! i = Some a ∧ ids !! j = Some b) ∧
     StronglySorted pairLe (orderedPairs ids) ∧
     (∀ a b, (a, b) ∈ orderedPairs ids →
             ∃ ea eb, Elements gs !! a = Some ea ∧ Elements gs !! b = Some eb ∧
                      renderPair gs (a, b) = Name ea +:+ " + " +:+ Name eb)) ∧
  getUntriedCombos abcGame = Some ["A + A"; "B + B"; "B + C"; "C + C"].
Proof.
  split; [|exact getUntriedCombos_abc].
  intros gs Hplus ids. subst ids.
  destruct (allElementNames_sorted gs) as [Hsorted Hnd].
  split; [|split; [|split; [|split; [|split]]]].
  - split_and!; [done | done | apply allElementNames_elem_of].
  - unfold getUntriedCombos. rewrite outerLoop_untried; [done|].
    apply Forall_forall. intros k Hk. by apply Hplus, allElementNames_elem_of.
  - reflexivity.
  - apply elem_of_orderedPairs.
  - by apply orderedPairs_sorted.
  - intros a b (i & j & _ & Hi & Hj)%elem_of_orderedPairs.
    apply list_elem_of_lookup_2, allElementNames_elem_of in Hi as [ea Ha].
    apply list_elem_of_lookup_2, allElementNames_elem_of in Hj as [eb Hb].
    exists ea, eb. unfold renderPair, elementAt. simpl. by rewrite Ha, Hb.
Qed.

Lemma getUntriedCombos_enumerates_witness :
  (∀ k, is_Some (Elements abcGame !! k) → noPlus k = true) ∧
  getUntriedCombos abcGame = Some (untriedSpec abcGame).
Proof.
  assert (H : ∀ k, is_Some (Elements abcGame !! k) → noPlus k = true).
  { intros k Hk. apply allElementNames_elem_of in Hk.
    assert (Hids : allElementNames abcGame = ["A"; "B"; "C"]) by (vm_compute; reflexivity).
    rewrite Hids in Hk.
    repeat (apply elem_of_cons in Hk as [->|Hk]; [reflexivity|]).
    inversion Hk. }
  split; [exact H|].
  exact (proj1 (proj2 (proj1 getUntriedCombos_enumerates abcGame H))).
Defined.

(** C3 does not hold for every catalog: with the identifier "a+b" in the catalog
    the pair of "a+b" and "c" is emitted although its reversed key
    "c+a+b" is listed as impossible. *)
Lemma getUntriedCombos_misses_reverse :
  "c+a+b" ∈ Impossible plusGame ∧
  allElementNames plusGame = ["a+b"; "c"] ∧
  getUntriedCombos plusGame = Some ["AB + AB"; "AB + C"; "C + C"] ∧
  untriedSpec plusGame = ["AB + AB"; "C + C"].
Proof.
  split_and!; [|vm_compute; reflexivity..].
  apply slices_Contains_elem_of. reflexivity.
Qed.

(** ** Beyond the claims: the resolver and the terminal loop *)

(** X1. [combineElements] only ever appends to the discovered list: the old
    list is a prefix of the new one, and the catalog (elements, recipes,
    impossibility list) is left as it was. *)
Theorem combineElements_only_appends (gs : GameState) (a b : string) :
  Discovered gs `prefix_of` Discovered (combineElements gs a b).2 ∧
  Elements (combineElements gs a b).2 = Elements gs ∧
  Recipes (combineElements gs a b).2 = Recipes gs ∧
  Impossible (combineElements gs a b).2 = Impossible gs.
Proof.
  assert (Hadd : ∀ r, Discovered gs `prefix_of` Discovered (addDiscovered gs r)).
  { intros r. destruct (decide (r ∈ Discovered gs)).
    - by rewrite addDiscovered_known.
    - rewrite addDiscovered_fresh by done. by apply prefix_app_r. }
  destruct (combineElements_cases gs a b)
    as [(r & _ & ->)|[(r & _ & _ & ->)|(_ & _ & ->)]]; simpl.
  - destruct (addDiscovered_catalog gs r) as (-> & -> & ->). by split_and!.
  - destruct (addDiscovered_catalog gs r) as (-> & -> & ->). by split_and!.
  - by split_and!.
Qed.

Lemma combineElements_firstMatch (gs : GameState) (a b r : string) :
  firstMatch (Recipes gs) a b r →
  combineElements gs a b = (r, addDiscovered gs r).
Proof.
  unfold firstMatch, combineElements. intros [->|[-> ->]]; reflexivity.
Qed.

Lemma combineElements_no_recipe (gs : GameState) (a b : string) :
  Recipes gs !! (a +:+ "+" +:+ b) = None →
  Recipes gs !! (b +:+ "+" +:+ a) = None →
  combineElements gs a b = ("", gs).
Proof. unfold combineElements. by intros -> ->. Qed.

Lemma mainCombine_gate_open (gs : GameState) (input1 input2 : string) :
  normalizeElementName input1 ∈ Discovered gs →
  normalizeElementName input2 ∈ Discovered gs →
  mainCombine gs input1 input2 =
    let '(result, gs') :=
      combineElements gs (normalizeElementName input1) (normalizeElementName input2) in
    if negb (String.eqb result "")
    then (YouCreated (Name (elementAt (Elements gs') result)), gs')
    else (CannotBeCombined, gs').
Proof.
  intros H1%isDiscovered_elem_of H2%isDiscovered_elem_of.
  unfold mainCombine. by rewrite H1, H2.
Qed.

(** X2. In the terminal loop, two discovered operands with a recipe whose
    result is not the empty identifier are answered by the creation message
    with the display name of the result, and the result is appended to the
    discovered list unless it is there already. *)
Theorem mainCombine_created (gs : GameState) (input1 input2 r : string) :
  normalizeElementName input1 ∈ Discovered gs →
  normalizeElementName input2 ∈ Discovered gs →
  firstMatch (Recipes gs) (normalizeElementName input1)
             (normalizeElementName input2) r →
  r ≠ "" →
  mainCombine gs input1 input2 =
    (YouCreated (Name (elementAt (Elements gs) r)), addDiscovered gs r).
Proof.
  intros H1 H2 Hm Hr. rewrite mainCombine_gate_open by done.
  rewrite (combineElements_firstMatch gs _ _ r Hm).
  destruct (String.eqb_spec r "") as [Heq|_]; [congruence|]. simpl.
  by destruct (addDiscovered_catalog gs r) as (-> & _ & _).
Qed.

Lemma mainCombine_created_witness :
  (normalizeElementName " Water" ∈ Discovered steamGame ∧
   normalizeElementName "FIRE " ∈ Discovered steamGame ∧
   firstMatch (Recipes steamGame) (normalizeElementName " Water")
              (normalizeElementName "FIRE ") "steam" ∧
   "steam" ≠ "") ∧
  mainCombine steamGame " Water" "FIRE " =
    (YouCreated (Name (elementAt (Elements steamGame) "steam")),
     addDiscovered steamGame "steam").
Proof.
  assert (H1 : normalizeElementName " Water" ∈ Discovered steamGame)
    by (apply slices_Contains_elem_of; reflexivity).
  assert (H2 : normalizeElementName "FIRE " ∈ Discovered steamGame)
    by (apply slices_Contains_elem_of; reflexivity).
  assert (Hm : firstMatch (Recipes steamGame) (normalizeElementName " Water")
                 (normalizeElementName "FIRE ") "steam")
    by (left; vm_compute; reflexivity).
  assert (Hr : "steam" ≠ "") by discriminate.
  split; [by split_and!|].
  exact (mainCombine_created steamGame " Water" "FIRE " "steam" H1 H2 Hm Hr).
Defined.

(** X3. With two discovered operands the loop prints the cannot-be-combined
    message exactly when no recipe is stored in either ordering or the first
    match is the empty identifier. In the first case the state is untouched;
    in the second the empty identifier joins the discovered list although
    the player is told that nothing was made. *)
Theorem mainCombine_cannot_be_combined (gs : GameState) (input1 input2 : string) :
  normalizeElementName input1 ∈ Discovered gs →
  normalizeElementName input2 ∈ Discovered gs →
  let a := normalizeElementName input1 in
  let b := normalizeElementName input2 in
  ((mainCombine gs input1 input2).1 = CannotBeCombined ↔
     (Recipes gs !! (a +:+ "+" +:+ b) = None ∧
      Recipes gs !! (b +:+ "+" +:+ a) = None) ∨
     firstMatch (Recipes gs) a b "") ∧
  (Recipes gs !! (a +:+ "+" +:+ b) = None →
   Recipes gs !! (b +:+ "+" +:+ a) = None →
   mainCombine gs input1 input2 = (CannotBeCombined, gs)) ∧
  (firstMatch (Recipes gs) a b "" →
   mainCombine gs input1 input2 = (CannotBeCombined, addDiscovered gs "")).
Proof.
  intros H1 H2 a b. subst a b.
  set (a := normalizeElementName input1). set (b := normalizeElementName input2).
  assert (Hmiss : Recipes gs !! (a +:+ "+" +:+ b) = None →
                  Recipes gs !! (b +:+ "+" +:+ a) = None →
                  mainCombine gs input1 input2 = (CannotBeCombined, gs)).
  { intros Hn1 Hn2. rewrite mainCombine_gate_open by done. fold a b.
    by rewrite combineElements_no_recipe. }
  assert (Hempty : firstMatch (Recipes gs) a b "" →
                   mainCombine gs input1 input2 = (CannotBeCombined, addDiscovered gs "")).
  { intros Hm. rewrite mainCombine_gate_open by done. fold a b.
    by rewrite (combineElements_firstMatch gs a b "" Hm). }
  split; [|by split].
  split.
  - intros Hmsg.
    destruct (combineElements_cases gs a b)
      as [(r & Hr1 & Hc)|[(r & Hr1 & Hr2 & Hc)|(Hr1 & Hr2 & _)]]; [| |by left].
    + right. rewrite mainCombine_gate_open in Hmsg by done. fold a b in Hmsg.
      rewrite Hc in Hmsg. simpl in Hmsg.
      destruct (String.eqb_spec r "") as [Heq|_]; [subst r; by left|].
      discriminate.
    + right. rewrite mainCombine_gate_open in Hmsg by done. fold a b in Hmsg.
      rewrite Hc in Hmsg. simpl in Hmsg.
      destruct (String.eqb_spec r "") as [Heq|_]; [subst r; by right|].
      discriminate.
  - intros [[Hn1 Hn2]|Hm]; [by rewrite Hmiss | by rewrite Hempty].
Qed.

Lemma mainCombine_cannot_be_combined_witness :
  (normalizeElementName "earth" ∈ Discovered steamGame ∧
   normalizeElementName "wind" ∈ Discovered steamGame) ∧
  mainCombine steamGame "earth" "wind" = (CannotBeCombined, steamGame).
Proof.
  assert (H1 : normalizeElementName "earth" ∈ Discovered steamGame)
    by (apply slices_Contains_elem_of; reflexivity).
  assert (H2 : normalizeElementName "wind" ∈ Discovered steamGame)
    by (apply slices_Contains_elem_of; reflexivity).
  split; [by split|].
  apply (proj1 (proj2 (mainCombine_cannot_be_combined steamGame "earth" "wind" H1 H2)));
    vm_compute; reflexivity.
Defined.

Lemma mainCombine_gate_closed (gs : GameState) (input1 input2 : string) :
  (normalizeElementName input1 ∉ Discovered gs) ∨
  (normalizeElementName input2 ∉ Discovered gs) →
  (mainCombine gs input1 input2).2 = gs.
Proof.
  unfold mainCombine, isDiscovered.
  intros [H|H]; apply slices_Contains_false in H; rewrite H; simpl;
    [done | by rewrite orb_true_r].
Qed.

Lemma mainCombine_step (gs : GameState) (input1 input2 : string) :
  (mainCombine gs input1 input2).2 = gs ∨
  ∃ r, normalizeElementName input1 ∈ Discovered gs ∧
       normalizeElementName input2 ∈ Discovered gs ∧
       firstMatch (Recipes gs) (normalizeElementName input1)
                  (normalizeElementName input2) r ∧
       (mainCombine gs input1 input2).2 = addDiscovered gs r.
Proof.
  destruct (decide (normalizeElementName input1 ∈ Discovered gs)) as [H1|H1];
    [|left; apply mainCombine_gate_closed; by left].
  destruct (decide (normalizeElementName input2 ∈ Discovered gs)) as [H2|H2];
    [|left; apply mainCombine_gate_closed; by right].
  rewrite mainCombine_gate_open by done.
  destruct (combineElements_cases gs (normalizeElementName input1)
              (normalizeElementName input2))
    as [(r & Hr1 & ->)|[(r & Hr1 & Hr2 & ->)|(Hr1 & Hr2 & ->)]].
  - right. exists r. split_and!; [done | done | by left |].
    by destruct (negb _).
  - right. exists r. split_and!; [done | done | by right |].
    by destruct (negb _).
  - by left.
Qed.

(** X4. Over a whole session at the terminal the discovered list only grows
    at its end, stays free of duplicates if it was, and the recipe table is
    never changed. *)
Theorem mainSession_grows (gs : GameState) (attempts : list (string * string)) :
  Discovered gs `prefix_of` Discovered (mainSession gs attempts) ∧
  Recipes (mainSession gs attempts) = Recipes gs ∧
  Elements (mainSession gs attempts) = Elements gs ∧
  (NoDup (Discovered gs) → NoDup (Discovered (mainSession gs attempts))).
Proof.
  revert gs. induction attempts as [|[input1 input2] rest IH]; intros gs; simpl.
  - by split_and!.
  - destruct (IH (mainCombine gs input1 input2).2) as (Hp & Hr & He & Hnd).
    assert (Hstep : Discovered gs `prefix_of` Discovered (mainCombine gs input1 input2).2 ∧
                    Recipes (mainCombine gs input1 input2).2 = Recipes gs ∧
                    Elements (mainCombine gs input1 input2).2 = Elements gs ∧
                    (NoDup (Discovered gs) →
                     NoDup (Discovered (mainCombine gs input1 input2).2))).
    { destruct (mainCombine_step gs input1 input2) as [->|(r & _ & _ & _ & ->)];
        [by split_and!|].
      destruct (addDiscovered_catalog gs r) as (-> & -> & _).
      split_and!; [|done|done|apply addDiscovered_NoDup].
      destruct (decide (r ∈ Discovered gs)).
      - by rewrite addDiscovered_known.
      - rewrite addDiscovered_fresh by done. by apply prefix_app_r. }
    destruct Hstep as (Hp' & Hr' & He' & Hnd').
    split_and!; [by etrans | congruence | congruence | auto].
Qed.



(** ** Beyond the claims: identifier normalisation *)

Lemma allBytes_append (p : ascii → bool) (a b : string) :
  allBytes p (a +:+ b) = allBytes p a && allBytes p b.
Proof.
  induction a as [|c a IH]; [done|].
  rewrite append_String. simpl. by rewrite IH, andb_assoc.
Qed.

Lemma trimLeft_spaces (pre s : string) :
  allBytes isSpaceByte pre = true → trimLeft (pre +:+ s) = trimLeft s.
Proof.
  induction pre as [|c pre IH]; [done|].
  rewrite append_String. simpl. intros [-> Hpre]%andb_true_iff. by apply IH.
Qed.

Lemma trimRight_spaces (s post : string) :
  allBytes isSpaceByte post = true → trimRight (s +:+ post) = trimRight s.
Proof.
  intros Hpost. induction s as [|c s IH].
  - change (EmptyString +:+ post) with post.
    induction post as [|c post IHp]; [done|].
    simpl in *. apply andb_true_iff in Hpost as [Hc Hpost].
    by rewrite (IHp Hpost), Hc.
  - rewrite append_String. simpl. by rewrite IH.
Qed.

Lemma strings_TrimSpace_right (s post : string) :
  allBytes isSpaceByte post = true →
  strings_TrimSpace (s +:+ post) = strings_TrimSpace s.
Proof.
  intros Hpost. unfold strings_TrimSpace. induction s as [|c s IH].
  - change (EmptyString +:+ post) with post.
    rewrite <- (trimLeft_spaces post EmptyString Hpost).
    replace (post +:+ EmptyString) with post; [done|].
    clear. induction post as [|c post IH]; [done|].
    by rewrite append_String, <- IH.
  - rewrite append_String. simpl. destruct (isSpaceByte c); [done|].
    rewrite <- append_String. by apply trimRight_spaces.
Qed.

Lemma strings_TrimSpace_spaces (pre s post : string) :
  allBytes isSpaceByte pre = true → allBytes isSpaceByte post = true →
  strings_TrimSpace (pre +:+ s +:+ post) = strings_TrimSpace s.
Proof.
  intros Hpre Hpost.
  rewrite <- (strings_TrimSpace_right s post Hpost).
  unfold strings_TrimSpace. by rewrite trimLeft_spaces.
Qed.

(** X6. White space around the input does not matter to
    [normalizeElementName]: for ASCII input, adding any run of tabs, line
    breaks or spaces in front or behind gives the same identifier. *)
Theorem normalizeElementName_ignores_padding (pre s post : string) :
  isASCII s = true →
  allBytes isSpaceByte pre = true → allBytes isSpaceByte post = true →
  normalizeElementName (pre +:+ s +:+ post) = normalizeElementName s.
Proof.
  intros _ Hpre Hpost. unfold normalizeElementName.
  by rewrite strings_TrimSpace_spaces.
Qed.

Lemma normalizeElementName_ignores_padding_witness :
  (isASCII "Hot Water" = true ∧
   allBytes isSpaceByte "  "  = true ∧
   allBytes isSpaceByte (String "009" " ") = true) ∧
  normalizeElementName ("  " +:+ "Hot Water" +:+ String "009" " ") =
    normalizeElementName "Hot Water".
Proof.
  split; [split_and!; reflexivity|].
  exact (normalizeElementName_ignores_padding "  " "Hot Water" (String "009" " ")
           eq_refl eq_refl eq_refl).
Defined.

Lemma trimLeft_mapBytes (f : ascii → ascii) (s : string) :
  (∀ c, isSpaceByte (f c) = isSpaceByte c) →
  trimLeft (mapBytes f s) = mapBytes f (trimLeft s).
Proof.
  intros Hf. induction s as [|c s IH]; simpl; [done|].
  rewrite Hf. by destruct (isSpaceByte c).
Qed.

Lemma trimRight_mapBytes (f : ascii → ascii) (s : string) :
  (∀ c, isSpaceByte (f c) = isSpaceByte c) →
  trimRight (mapBytes f s) = mapBytes f (trimRight s).
Proof.
  intros Hf. induction s as [|c s IH]; simpl; [done|].
  rewrite IH, Hf. destruct (trimRight s); simpl; [|done].
  by destruct (isSpaceByte c).
Qed.

Lemma toLowerByte_space (c : ascii) : isSpaceByte (toLowerByte c) = isSpaceByte c.
Proof. each_byte c. Qed.

Lemma toLowerByte_idem (c : ascii) : toLowerByte (toLowerByte c) = toLowerByte c.
Proof. each_byte c. Qed.

Lemma toLowerByte_normByte (c : ascii) : toLowerByte (normByte c) = normByte c.
Proof. each_byte c. Qed.

Lemma strings_TrimSpace_ToLower (s : string) :
  strings_TrimSpace (strings_ToLower s) = strings_ToLower (strings_TrimSpace s).
Proof.
  unfold strings_TrimSpace, strings_ToLower.
  rewrite trimLeft_mapBytes, trimRight_mapBytes by apply toLowerByte_space.
  reflexivity.
Qed.

(** X7. [normalizeElementName] does not see the case of ASCII letters: two
    ASCII inputs that are equal once lower-cased give the same identifier. *)
Theorem normalizeElementName_ignores_case (s1 s2 : string) :
  isASCII s1 = true → isASCII s2 = true →
  strings_ToLower s1 = strings_ToLower s2 →
  normalizeElementName s1 = normalizeElementName s2.
Proof.
  intros _ _ Heq. unfold normalizeElementName.
  by rewrite <- !strings_TrimSpace_ToLower, Heq.
Qed.

Lemma normalizeElementName_ignores_case_witness :
  (isASCII "Hot WATER" = true ∧ isASCII "hOT water" = true ∧
   strings_ToLower "Hot WATER" = strings_ToLower "hOT water") ∧
  normalizeElementName "Hot WATER" = normalizeElementName "hOT water".
Proof.
  split; [split_and!; reflexivity|].
  exact (normalizeElementName_ignores_case "Hot WATER" "hOT water"
           eq_refl eq_refl eq_refl).
Defined.

Lemma mapBytes_id (f : ascii → ascii) (s : string) :
  (∀ c, f c = c) → mapBytes f s = s.
Proof. intros Hf. induction s as [|c s IH]; simpl; [done | by rewrite Hf, IH]. Qed.

(** X8. The earlier revision of [normalizeElementName] is idempotent too, and
    it leaves every identifier produced by the current one as it is: what
    the current engine calls canonical is accepted unchanged by the earlier
    one (ASCII input). *)
Theorem Legacy_normalizeElementName_fixes_canonical (s : string) :
  isASCII s = true →
  Legacy.normalizeElementName (normalizeElementName s) = normalizeElementName s ∧
  Legacy.normalizeElementName (Legacy.normalizeElementName s) =
    Legacy.normalizeElementName s.
Proof.
  intros _. split.
  - unfold Legacy.normalizeElementName. rewrite strings_TrimSpace_id.
    + rewrite normalizeElementName_bytes. unfold strings_ToLower.
      rewrite mapBytes_compose. apply mapBytes_ext, toLowerByte_normByte.
    + rewrite normalizeElementName_bytes.
      apply trimmed_mapBytes_normByte, strings_TrimSpace_trimmed.
  - unfold Legacy.normalizeElementName.
    rewrite strings_TrimSpace_ToLower.
    rewrite (strings_TrimSpace_id (strings_TrimSpace s))
      by apply strings_TrimSpace_trimmed.
    unfold strings_ToLower. rewrite mapBytes_compose.
    apply mapBytes_ext, toLowerByte_idem.
Qed.

Lemma Legacy_normalizeElementName_fixes_canonical_witness :
  isASCII " Hot Water" = true ∧
  Legacy.normalizeElementName (normalizeElementName " Hot Water") =
    normalizeElementName " Hot Water" ∧
  Legacy.normalizeElementName (Legacy.normalizeElementName " Hot Water") =
    Legacy.normalizeElementName " Hot Water".
Proof.
  split; [reflexivity|].
  exact (Legacy_normalizeElementName_fixes_canonical " Hot Water" eq_refl).
Defined.

(** ** Beyond the claims: the enumerator *)

Lemma strings_Split_plus_length (s : string) :
  noPlus s = false → 2 ≤ length (strings_Split s "+").
Proof.
  unfold noPlus. induction s as [|c s IH]; simpl; [discriminate|].
  destruct (Ascii.eqb c "+") eqn:Hc; simpl.
  - intros _. pose proof (strings_Split_length s "+"). lia.
  - intros Hs. specialize (IH Hs).
    destruct (strings_Split s "+"); simpl in *; lia.
Qed.

(** X9. [isImpossible] runs into the index panic exactly on a combo without
    a "+"; on every other combo it returns an answer. *)
Theorem isImpossible_panics_iff (gs : GameState) (combo : string) :
  isImpossible gs combo = None ↔ noPlus combo = true.
Proof.
  unfold isImpossible. split.
  - intros Hnone. destruct (noPlus combo) eqn:Hp; [done|].
    apply strings_Split_plus_length in Hp.
    destruct (strings_Split combo "+") as [|e0 [|e1 rest]]; simpl in *;
      [lia | lia | discriminate].
  - intros Hp. by rewrite strings_Split_noPlus.
Qed.

(** X10. For operands without a "+", [isImpossible] gives the same answer for
    both orderings of the pair, and answers true exactly when one of the two
    orderings is on the impossibility list. *)
Theorem isImpossible_symmetric (gs : GameState) (a b : string) :
  noPlus a = true → noPlus b = true →
  isImpossible gs (a +:+ "+" +:+ b) = isImpossible gs (b +:+ "+" +:+ a) ∧
  (isImpossible gs (a +:+ "+" +:+ b) = Some true ↔
     (a +:+ "+" +:+ b) ∈ Impossible gs ∨ (b +:+ "+" +:+ a) ∈ Impossible gs).
Proof.
  intros Ha Hb. rewrite !isImpossible_combo by done. split.
  - by rewrite orb_comm.
  - rewrite <- !slices_Contains_elem_of.
    destruct (slices_Contains (Impossible gs) (a +:+ "+" +:+ b)),
             (slices_Contains (Impossible gs) (b +:+ "+" +:+ a)); simpl;
      split; (try done); (try by left); (try by right); intros [?|?]; done.
Qed.

Lemma isImpossible_symmetric_witness :
  (noPlus "C" = true ∧ noPlus "A" = true) ∧
  isImpossible abcGame ("C" +:+ "+" +:+ "A") =
    isImpossible abcGame ("A" +:+ "+" +:+ "C") ∧
  (isImpossible abcGame ("C" +:+ "+" +:+ "A") = Some true ↔
     ("C" +:+ "+" +:+ "A") ∈ Impossible abcGame ∨
     ("A" +:+ "+" +:+ "C") ∈ Impossible abcGame).
Proof.
  split; [by split|].
  exact (isImpossible_symmetric abcGame "C" "A" eq_refl eq_refl).
Defined.

Lemma comboStep_length (gs : GameState) (a b : string) (combos combos' : list string) :
  comboStep gs a b combos = Some combos' →
  length combos' ≤ S (length combos).
Proof.
  unfold comboStep.
  destruct (Recipes gs !! (a +:+ "+" +:+ b)); [intros [= <-]; lia|].
  destruct (Recipes gs !! (b +:+ "+" +:+ a)); [intros [= <-]; lia|].
  destruct (isImpossible gs (a +:+ "+" +:+ b)) as [[]|]; simpl;
    [intros [= <-]; lia | | discriminate].
  intros [= <-]. rewrite length_app. simpl. lia.
Qed.

Lemma innerLoop_length (gs : GameState) (a : string) (rest combos combos' : list string) :
  innerLoop gs a rest combos = Some combos' →
  length combos' ≤ length combos + length rest.
Proof.
  revert combos. induction rest as [|b rest IH]; intros combos; simpl.
  - intros [= <-]. lia.
  - destruct (comboStep gs a b combos) as [c1|] eqn:Hs; simpl; [|discriminate].
    intros H. apply IH in H. apply comboStep_length in Hs. lia.
Qed.

Lemma outerLoop_length (gs : GameState) (l combos combos' : list string) :
  outerLoop gs l combos = Some combos' →
  2 * length combos' ≤ 2 * length combos + length l * S (length l).
Proof.
  revert combos. induction l as [|a rest IH]; intros combos.
  - simpl. intros [= <-]. lia.
  - change (outerLoop gs (a :: rest) combos)
      with (innerLoop gs a (a :: rest) combos ≫= outerLoop gs rest).
    destruct (innerLoop gs a (a :: rest) combos) as [c1|] eqn:Hi;
      cbn [mbind option_bind]; [|discriminate].
    intros H. apply IH in H. apply innerLoop_length in Hi. simpl in *. lia.
Qed.

Lemma allElementNames_length (gs : GameState) :
  length (allElementNames gs) = size (Elements gs).
Proof.
  unfold allElementNames, sort_Strings.
  rewrite merge_sort_Permutation, length_fmap. apply length_map_to_list.
Qed.

(** X11. [getUntriedCombos] always returns a list (the index panic of
    [isImpossible] is never reached, whatever the catalog), and for a catalog
    of n elements the list has at most n(n+1)/2 entries. *)
Theorem getUntriedCombos_bounded (gs : GameState) :
  ∃ combos, getUntriedCombos gs = Some combos ∧
            2 * length combos ≤ size (Elements gs) * S (size (Elements gs)).
Proof.
  destruct (getUntriedCombos_total gs) as [combos Hc].
  exists combos. split; [done|].
  unfold getUntriedCombos in Hc. apply outerLoop_length in Hc.
  rewrite allElementNames_length in Hc. simpl in Hc. lia.
Qed.

(** ** Beyond the claims: loading, caching and saving *)

Lemma seedIfEmpty_not_nil (l : list string) : seedIfEmpty l ≠ [].
Proof. unfold seedIfEmpty. by destruct l. Qed.

Lemma seedIfEmpty_id (l : list string) : l ≠ [] → seedIfEmpty l = l.
Proof. unfold seedIfEmpty. by destruct l. Qed.

(** X12. A state returned by [loadGameState], and a state that
    [getUserGameState] creates for an identity it has not cached, never has
    an empty discovered list. *)
Theorem initial_discovered_not_empty :
  (∀ dev env gs, loadGameState dev env = Ok gs → Discovered gs ≠ []) ∧
  (∀ tb userID env gs tb',
     gameStates tb !! userID = None →
     getUserGameState tb userID env = Ok (gs, tb') → Discovered gs ≠ []).
Proof.
  split.
  - intros dev env gs (path & _ & ->)%loadGameState_Ok. apply seedIfEmpty_not_nil.
  - intros tb userID env gs tb' Hnew H.
    apply getUserGameState_fresh_Ok in H as (path & _ & -> & _); [|done].
    apply seedIfEmpty_not_nil.
Qed.

Lemma initial_discovered_not_empty_witness :
  loadGameState false steamOnlyEnv = Ok (withDiscovered steamGame ["steam"]) ∧
  Discovered (withDiscovered steamGame ["steam"]) ≠ [].
Proof.
  assert (H : loadGameState false steamOnlyEnv = Ok (withDiscovered steamGame ["steam"]))
    by reflexivity.
  split; [exact H|].
  exact (proj1 initial_discovered_not_empty false steamOnlyEnv _ H).
Defined.

Lemma getUserGameState_Ok_frame (tb tb' : TelegramBot) (userID : Z) (env : Env)
    (gs : GameState) :
  getUserGameState tb userID env = Ok (gs, tb') →
  gameStates tb' !! userID = Some gs ∧
  (∀ other, other ≠ userID → gameStates tb' !! other = gameStates tb !! other) ∧
  userStates tb' = userStates tb.
Proof.
  intros H. destruct (gameStates tb !! userID) as [cached|] eqn:Hc.
  - unfold getUserGameState in H. rewrite Hc in H. injection H as <- <-.
    by split_and!.
  - pose proof H as H'.
    apply getUserGameState_fresh_Ok in H' as (path & _ & _ & Hin); [|done].
    split; [done|].
    unfold getUserGameState in H. rewrite Hc in H.
    apply rbind_Ok in H as (els & _ & H). apply rbind_Ok in H as (rec & _ & H).
    destruct (getTelegramUserProgressPath env userID); [|discriminate].
    injection H as _ <-. simpl. split; [|done].
    intros other Hne. by rewrite lookup_insert_ne.
Qed.

Lemma getUserGameState_hit (tb : TelegramBot) (userID : Z) (env : Env)
    (gs : GameState) :
  gameStates tb !! userID = Some gs → getUserGameState tb userID env = Ok (gs, tb).
Proof. intros H. unfold getUserGameState. by rewrite H. Qed.

(** X13. Once [getUserGameState] has succeeded for an identity, the state is
    served from the cache: a later call returns the same state and the same
    bot in any environment, even one whose data can no longer be read. The
    first call leaves the cached states of all other identities and the
    dialogue states as they were. *)
Theorem getUserGameState_cached (tb tb' : TelegramBot) (userID : Z) (env : Env)
    (gs : GameState) :
  getUserGameState tb userID env = Ok (gs, tb') →
  gameStates tb' !! userID = Some gs ∧
  (∀ env', getUserGameState tb' userID env' = Ok (gs, tb')) ∧
  (∀ other, other ≠ userID → gameStates tb' !! other = gameStates tb !! other) ∧
  userStates tb' = userStates tb.
Proof.
  intros (Hin & Hother & Hus)%getUserGameState_Ok_frame.
  split_and!; [done | | done | done].
  intros env'. by apply getUserGameState_hit.
Qed.

Lemma getUserGameState_cached_witness :
  ∃ gs tb',
    getUserGameState newBot 7 newPlayerEnv = Ok (gs, tb') ∧
    gameStates tb' !! 7%Z = Some gs ∧
    (∀ env', getUserGameState tb' 7 env' = Ok (gs, tb')) ∧
    (∀ other, other ≠ 7%Z → gameStates tb' !! other = gameStates newBot !! other) ∧
    userStates tb' = userStates newBot.
Proof.
  eexists _, _. split; [reflexivity|].
  apply (getUserGameState_cached newBot _ 7 newPlayerEnv _ eq_refl).
Defined.

Lemma writeFile_read (env : Env) (path p : string) (f : ProgressFile) :
  readFile (writeFile env path f) p = if String.eqb p path then f else readFile env p.
Proof. reflexivity. Qed.

(** X14. Saving and loading round-trip at the terminal: after a
    [saveLocalProgress] whose write succeeds, [loadGameState] (in the mode
    whose catalog loads) returns the saved discovered list, provided the list
    is not empty and its identifiers survive the JSON encoding. Saving an
    empty list does not round-trip: the load seeds it. *)
Theorem saveLocalProgress_then_load (reread : list string → list string)
    (gs : GameState) (env : Env) (dev : bool) (path : string) :
  getProgressFilePath env = Some path →
  catalogLoads (selectedData dev env) = true →
  reread (Discovered gs) = Discovered gs →
  (saveLocalProgress reread gs env Written).1 = None ∧
  ∃ gs', loadGameState dev (saveLocalProgress reread gs env Written).2 = Ok gs' ∧
         (Discovered gs ≠ [] → Discovered gs' = Discovered gs) ∧
         (Discovered gs = [] → Discovered gs' = bootstrap).
Proof.
  intros Hpath Hcat Hre. unfold saveLocalProgress. rewrite Hpath. simpl.
  split; [done|].
  set (env' := writeFile env path (FileWith (reread (Discovered gs)))).
  assert (Hcat' : catalogLoads (selectedData dev env') = true) by (by destruct dev).
  destruct (loadGameState dev env') as [e|gs'] eqn:Hload.
  - exfalso. revert Hload Hcat'. unfold loadGameState, catalogLoads, selectedData.
    destruct dev; simpl;
      destruct (elementsJSON _), (recipesJSON _), (impossibleJSON _); simpl;
      try discriminate; rewrite Hpath; discriminate.
  - exists gs'. split; [done|].
    apply loadGameState_Ok in Hload as (path' & Hp' & ->).
    simpl in Hp'. rewrite Hpath in Hp'. injection Hp' as <-.
    unfold env'. rewrite writeFile_read, String.eqb_refl. simpl. rewrite Hre.
    split; [apply seedIfEmpty_id | by intros ->].
Qed.

Lemma saveLocalProgress_then_load_witness :
  (getProgressFilePath newPlayerEnv = Some "progress.json" ∧
   catalogLoads (selectedData false newPlayerEnv) = true) ∧
  (saveLocalProgress id (mainCombine steamGame "water" "fire").2 newPlayerEnv Written).1
    = None ∧
  ∃ gs',
    loadGameState false
      (saveLocalProgress id (mainCombine steamGame "water" "fire").2
         newPlayerEnv Written).2 = Ok gs' ∧
    (Discovered (mainCombine steamGame "water" "fire").2 ≠ [] →
     Discovered gs' = Discovered (mainCombine steamGame "water" "fire").2) ∧
    (Discovered (mainCombine steamGame "water" "fire").2 = [] →
     Discovered gs' = bootstrap).
Proof.
  split; [by split|].
  exact (saveLocalProgress_then_load id (mainCombine steamGame "water" "fire").2
           newPlayerEnv false "progress.json" eq_refl eq_refl eq_refl).
Defined.

Lemma getUserGameState_after_save (reread : list string → list string)
    (gs : GameState) (env : Env) (userID : Z) (path : string) (tb : TelegramBot) :
  getTelegramUserProgressPath env userID = Some path →
  holds (elementsJSON (embeddedData env)) = true →
  holds (recipesJSON (embeddedData env)) = true →
  reread (Discovered gs) = Discovered gs →
  Discovered gs ≠ [] →
  gameStates tb !! userID = None →
  ∃ gs' tb',
    getUserGameState tb userID
      (saveTelegramProgress reread gs userID env Written).2 = Ok (gs', tb') ∧
    Discovered gs' = Discovered gs.
Proof.
  intros Hpath Hels Hrec Hre Hne Hnew. unfold saveTelegramProgress.
  rewrite Hpath. simpl.
  unfold getUserGameState. rewrite Hnew. simpl.
  destruct (elementsJSON (embeddedData env)) as [| |els]; try discriminate.
  destruct (recipesJSON (embeddedData env)) as [| |rec]; try discriminate.
  simpl. rewrite Hpath. eexists _, _. split; [reflexivity|]. simpl.
  rewrite String.eqb_refl. simpl. rewrite Hre. by apply seedIfEmpty_id.
Qed.



(** ** Beyond the claims: the HTTP endpoint *)

Lemma handleCombineAPI_GET (gs : GameState) (r : Request) :
  Method r = "GET" →
  handleCombineAPI gs r =
    (Json
       match Recipes gs !! (normalizeElementName (queryGet r "element-one") +:+ "+" +:+
                            normalizeElementName (queryGet r "element-two")) with
       | Some result =>
           {| Success := true; Result := Name (elementAt (Elements gs) result);
              Error := "" |}
       | None =>
           match Recipes gs !! (normalizeElementName (queryGet r "element-two") +:+ "+" +:+
                                normalizeElementName (queryGet r "element-one")) with
           | Some result =>
               {| Success := true; Result := Name (elementAt (Elements gs) result);
                  Error := "" |}
           | None =>
               {| Success := false; Result := "";
                  Error := "These elements cannot be combined" |}
           end
       end, gs).
Proof. intros Hm. unfold handleCombineAPI. by rewrite Hm. Qed.

(** X16. The endpoint and the resolver agree: for a GET request, a success
    carries the display name of what [combineElements] returns for the
    normalised operands, a failure means that [combineElements] returns the
    empty identifier and changes nothing, and whenever [combineElements]
    returns a non-empty identifier the endpoint reports success. *)
Theorem handleCombineAPI_agrees_with_combineElements (gs : GameState) (r : Request) :
  Method r = "GET" →
  let a := normalizeElementName (queryGet r "element-one") in
  let b := normalizeElementName (queryGet r "element-two") in
  ∃ body,
    handleCombineAPI gs r = (Json body, gs) ∧
    (Success body = true →
       Result body = Name (elementAt (Elements gs) (combineElements gs a b).1)) ∧
    (Success body = false → combineElements gs a b = ("", gs)) ∧
    ((combineElements gs a b).1 ≠ "" → Success body = true).
Proof.
  intros Hm a b. rewrite handleCombineAPI_GET by done. fold a b.
  unfold combineElements.
  destruct (Recipes gs !! (a +:+ "+" +:+ b)) as [r1|];
    [|destruct (Recipes gs !! (b +:+ "+" +:+ a)) as [r2|]];
    eexists; (split; [reflexivity|]); simpl; split_and!; try done.
Qed.

Lemma handleCombineAPI_agrees_with_combineElements_witness :
  Method (getRequest "Water" "FIRE") = "GET" ∧
  ∃ body,
    handleCombineAPI steamGame (getRequest "Water" "FIRE") = (Json body, steamGame) ∧
    (Success body = true →
       Result body =
         Name (elementAt (Elements steamGame)
                 (combineElements steamGame
                    (normalizeElementName (queryGet (getRequest "Water" "FIRE") "element-one"))
                    (normalizeElementName (queryGet (getRequest "Water" "FIRE") "element-two"))).1)) ∧
    (Success body = false →
       combineElements steamGame
         (normalizeElementName (queryGet (getRequest "Water" "FIRE") "element-one"))
         (normalizeElementName (queryGet (getRequest "Water" "FIRE") "element-two")) =
       ("", steamGame)) ∧
    ((combineElements steamGame
        (normalizeElementName (queryGet (getRequest "Water" "FIRE") "element-one"))
        (normalizeElementName (queryGet (getRequest "Water" "FIRE") "element-two"))).1 ≠ "" →
     Success body = true).
Proof.
  split; [reflexivity|].
  exact (handleCombineAPI_agrees_with_combineElements steamGame
           (getRequest "Water" "FIRE") eq_refl).
Defined.

(** X17. Swapping the two query parameters of a GET request never turns a
    success into a failure or back; the two replies are equal when the
    recipe table does not store the two orderings with different results. *)
Theorem handleCombineAPI_swap (gs : GameState) (r1 r2 : Request) :
  Method r1 = "GET" → Method r2 = "GET" →
  queryGet r2 "element-one" = queryGet r1 "element-two" →
  queryGet r2 "element-two" = queryGet r1 "element-one" →
  let a := normalizeElementName (queryGet r1 "element-one") in
  let b := normalizeElementName (queryGet r1 "element-two") in
  ∃ body1 body2,
    handleCombineAPI gs r1 = (Json body1, gs) ∧
    handleCombineAPI gs r2 = (Json body2, gs) ∧
    Success body1 = Success body2 ∧
    ((∀ x y, Recipes gs !! (a +:+ "+" +:+ b) = Some x →
             Recipes gs !! (b +:+ "+" +:+ a) = Some y → x = y) →
     body1 = body2).
Proof.
  intros Hm1 Hm2 Hq1 Hq2 a b.
  rewrite !handleCombineAPI_GET by done. rewrite Hq1, Hq2. fold a b.
  destruct (Recipes gs !! (a +:+ "+" +:+ b)) as [x|] eqn:Hx;
    destruct (Recipes gs !! (b +:+ "+" +:+ a)) as [y|] eqn:Hy;
    eexists _, _; (split; [reflexivity|]); (split; [reflexivity|]);
    simpl; (split; [done|]); intros Hag; try done.
  by rewrite (Hag x y).
Qed.

Lemma handleCombineAPI_swap_witness :
  (Method (getRequest "a" "b") = "GET" ∧ Method (getRequest "b" "a") = "GET" ∧
   queryGet (getRequest "b" "a") "element-one" = queryGet (getRequest "a" "b") "element-two" ∧
   queryGet (getRequest "b" "a") "element-two" = queryGet (getRequest "a" "b") "element-one") ∧
  ∃ body1 body2,
    handleCombineAPI twoWayGame (getRequest "a" "b") = (Json body1, twoWayGame) ∧
    handleCombineAPI twoWayGame (getRequest "b" "a") = (Json body2, twoWayGame) ∧
    Success body1 = Success body2 ∧
    ((∀ x y,
        Recipes twoWayGame !!
          (normalizeElementName (queryGet (getRequest "a" "b") "element-one") +:+ "+" +:+
           normalizeElementName (queryGet (getRequest "a" "b") "element-two")) = Some x →
        Recipes twoWayGame !!
          (normalizeElementName (queryGet (getRequest "a" "b") "element-two") +:+ "+" +:+
           normalizeElementName (queryGet (getRequest "a" "b") "element-one")) = Some y →
        x = y) →
     body1 = body2).
Proof.
  split; [split_and!; reflexivity|].
  exact (handleCombineAPI_swap twoWayGame (getRequest "a" "b") (getRequest "b" "a")
           eq_refl eq_refl eq_refl eq_refl).
Defined.

(** X18. A GET request that lacks both query parameters is not refused: both
    operands are read as the empty identifier, so the reply is a success
    exactly when the recipe table has the key "+", and the fixed failure
    otherwise. *)
Theorem handleCombineAPI_without_parameters (gs : GameState) (r : Request) :
  Method r = "GET" →
  Query r !! "element-one" = None → Query r !! "element-two" = None →
  ∃ body,
    handleCombineAPI gs r = (Json body, gs) ∧
    (Success body = true ↔ is_Some (Recipes gs !! "+")) ∧
    (Recipes gs !! "+" = None →
     body = {| Success := false; Result := "";
               Error := "These elements cannot be combined" |}).
Proof.
  intros Hm H1 H2. rewrite handleCombineAPI_GET by done.
  unfold queryGet. rewrite H1, H2.
  change (normalizeElementName "" +:+ "+" +:+ normalizeElementName "") with "+".
  destruct (Recipes gs !! "+") as [x|] eqn:Hx.
  - eexists. split; [reflexivity|]. simpl. split; [|done].
    split; [eauto | done].
  - eexists. split; [reflexivity|]. simpl. split; [|done].
    split; [discriminate | intros [? ?]; discriminate].
Qed.

Lemma handleCombineAPI_without_parameters_witness :
  (Method bareRequest = "GET" ∧
   Query bareRequest !! "element-one" = None ∧
   Query bareRequest !! "element-two" = None) ∧
  ∃ body,
    handleCombineAPI steamGame bareRequest = (Json body, steamGame) ∧
    (Success body = true ↔ is_Some (Recipes steamGame !! "+")) ∧
    (Recipes steamGame !! "+" = None →
     body = {| Success := false; Result := "";
               Error := "These elements cannot be combined" |}).
Proof.
  split; [split_and!; reflexivity|].
  exact (handleCombineAPI_without_parameters steamGame bareRequest
           eq_refl eq_refl eq_refl).
Defined.

(** ** Beyond the claims: the chat bot's dialogue *)

Lemma handleFirstElement_cached (tb : TelegramBot) (chatID : Z) (element : string)
    (env : Env) (gs : GameState) :
  gameStates tb !! chatID = Some gs →
  handleFirstElement tb chatID element env =
    if negb (isDiscovered gs (normalizeElementName element))
    then ([NotDiscoveredTryAnother], tb)
    else ([EnterSecondElement],
          withUserStates tb
            (<[chatID := {| waitingForFirstElement := false;
                            waitingForSecondElement := true;
                            firstElement := normalizeElementName element |}]>
               (userStates tb))).
Proof.
  intros H. unfold handleFirstElement.
  by rewrite (getUserGameState_hit tb chatID env gs H).
Qed.

Lemma handleSecondElement_cached (tb : TelegramBot) (chatID : Z)
    (first second : string) (env : Env) (gs : GameState) :
  gameStates tb !! chatID = Some gs →
  handleSecondElement tb chatID first second env =
    if negb (isDiscovered gs (normalizeElementName second))
    then ([NotDiscoveredTryAnother], tb, None)
    else
      let '(result, gs') := combineElements gs first (normalizeElementName second) in
      let tb' := {| gameStates := <[chatID := gs']> (gameStates tb);
                    userStates := delete chatID (userStates tb) |} in
      if negb (String.eqb result "")
      then ([YouCreatedReply (Name (elementAt (Elements gs') result)); MainMenu],
            tb', Some (Discovered gs'))
      else ([CannotBeCombinedReply; MainMenu], tb', None).
Proof.
  intros H. unfold handleSecondElement.
  by rewrite (getUserGameState_hit tb chatID env gs H).
Qed.

(** X19. The bot's two-step dialogue and the terminal's menu entry do the
    same: for a chat whose cached state is [gs], an undiscovered first
    element is refused and leaves the bot as it was; a discovered one is
    stored normalised in the dialogue state, and the second step then answers
    with the reply that corresponds to the message of [mainCombine gs], leaves
    [mainCombine]'s state in the cache, and hands the discovered list to the
    save exactly when something was created. *)
Theorem bot_dialogue_matches_terminal (tb : TelegramBot) (chatID : Z)
    (input1 input2 : string) (env : Env) (gs : GameState) :
  gameStates tb !! chatID = Some gs →
  let a := normalizeElementName input1 in
  let first := handleFirstElement tb chatID input1 env in
  let second := handleSecondElement first.2 chatID a input2 env in
  (a ∉ Discovered gs → first = ([NotDiscoveredTryAnother], tb)) ∧
  (a ∈ Discovered gs →
     first.1 = [EnterSecondElement] ∧
     userStates first.2 !! chatID =
       Some {| waitingForFirstElement := false;
               waitingForSecondElement := true;
               firstElement := a |} ∧
     second.1.1 = botReply (mainCombine gs input1 input2).1 ∧
     gameStates second.1.2 !! chatID = Some (mainCombine gs input1 input2).2 ∧
     second.2 =
       match (mainCombine gs input1 input2).1 with
       | YouCreated _ => Some (Discovered (mainCombine gs input1 input2).2)
       | _ => None
       end).
Proof.
  intros Hc a first second. subst first second.
  rewrite (handleFirstElement_cached tb chatID input1 env gs Hc). fold a.
  split.
  - intros Ha%slices_Contains_false. unfold isDiscovered. by rewrite Ha.
  - intros Ha. pose proof Ha as Ha'%isDiscovered_elem_of. rewrite Ha'. simpl.
    split; [done|]. split; [apply lookup_insert_eq|].
    rewrite (handleSecondElement_cached (withUserStates tb _) chatID a input2 env gs Hc).
    unfold mainCombine. fold a. rewrite Ha'. simpl.
    destruct (isDiscovered gs (normalizeElementName input2)); simpl; [|done].
    destruct (combineElements gs a (normalizeElementName input2)) as [result gs'].
    destruct (negb (String.eqb result "")); simpl;
      (split; [done|]); (split; [apply lookup_insert_eq | done]).
Qed.

Lemma bot_dialogue_matches_terminal_witness :
  gameStates steamBot !! 1%Z = Some steamGame ∧
  normalizeElementName "Water" ∈ Discovered steamGame ∧
  (handleSecondElement (handleFirstElement steamBot 1 "Water" newPlayerEnv).2 1
     (normalizeElementName "Water") "FIRE" newPlayerEnv).1.1 =
    botReply (mainCombine steamGame "Water" "FIRE").1.
Proof.
  assert (Hc : gameStates steamBot !! 1%Z = Some steamGame) by reflexivity.
  assert (Ha : normalizeElementName "Water" ∈ Discovered steamGame)
    by (apply slices_Contains_elem_of; reflexivity).
  split; [exact Hc|]. split; [exact Ha|].
  exact (proj1 (proj2 (proj2 (proj2
           (bot_dialogue_matches_terminal steamBot 1 "Water" "FIRE" newPlayerEnv
              steamGame Hc) Ha)))).
Defined.



(** X21. What the bot creates survives a restart: when the second step of
    the dialogue hands a list to the save, that list is the discovered list
    now in the cache; and if the write succeeds and the identifiers survive
    the JSON encoding, a bot that has not cached the chat loads exactly this
    list from the file. *)
Theorem bot_creation_survives_restart (reread : list string → list string)
    (tb tb' tb0 : TelegramBot) (chatID : Z) (first second path : string)
    (env : Env) (msgs : list BotMessage) (saved : list string) :
  handleSecondElement tb chatID first second env = (msgs, tb', Some saved) →
  getTelegramUserProgressPath env chatID = Some path →
  holds (elementsJSON (embeddedData env)) = true →
  holds (recipesJSON (embeddedData env)) = true →
  reread saved = saved →
  gameStates tb0 !! chatID = None →
  ∃ gs', gameStates tb' !! chatID = Some gs' ∧ Discovered gs' = saved ∧
    ∃ gs0 tb0',
      getUserGameState tb0 chatID
        (saveTelegramProgress reread gs' chatID env Written).2 = Ok (gs0, tb0') ∧
      Discovered gs0 = saved.
Proof.
  intros H Hpath Hels Hrec Hre Hnew. unfold handleSecondElement in H.
  destruct (getUserGameState tb chatID env) as [e|[gs tb1]]; [discriminate|].
  destruct (negb (isDiscovered _ _)); [discriminate|].
  destruct (combineElements_cases gs first (normalizeElementName second))
    as [(r & _ & Hc)|[(r & _ & _ & Hc)|(_ & _ & Hc)]]; rewrite Hc in H.
  1,2: destruct (negb (String.eqb r "")); [|discriminate];
       injection H as _ <- <-; exists (addDiscovered gs r);
       (split; [apply lookup_insert_eq|]); (split; [done|]);
       apply (getUserGameState_after_save reread _ env chatID path tb0);
       try done;
       intros Hnil;
       assert (Hin : r ∈ Discovered (addDiscovered gs r))
         by (apply addDiscovered_elem_of; by right);
       rewrite Hnil in Hin; inversion Hin.
  simpl in H. discriminate.
Qed.

Lemma bot_creation_survives_restart_witness :
  ∃ msgs tb' saved,
    handleSecondElement steamBot 1 "water" "Fire" perUserEnv = (msgs, tb', Some saved) ∧
    ∃ gs', gameStates tb' !! 1%Z = Some gs' ∧ Discovered gs' = saved ∧
      ∃ gs0 tb0',
        getUserGameState newBot 1
          (saveTelegramProgress id gs' 1 perUserEnv Written).2 = Ok (gs0, tb0') ∧
        Discovered gs0 = saved.
Proof.
  eexists _, _, _. split; [vm_compute; reflexivity|].
  eapply (bot_creation_survives_restart id steamBot _ newBot 1 "water" "Fire"
            "telegram/1.json" perUserEnv);
    [vm_compute; reflexivity | reflexivity..].
Defined.

(** ** Beyond the claims: the data validation test *)

Lemma seenAt_insert (seen : gmap string bool) (k k' : string) :
  seenAt (<[k := true]> seen) k' = false ↔ k' ≠ k ∧ seenAt seen k' = false.
Proof.
  unfold seenAt. destruct (decide (k = k')) as [->|Hne].
  - rewrite lookup_insert_eq. simpl. split; [discriminate | by intros [? _]].
  - rewrite lookup_insert_ne by done. split; [by split | by intros [_ ?]].
Qed.

Lemma checkElementIndexes_nil (indexes : list string) (seen : gmap string bool) :
  checkElementIndexes indexes seen = [] ↔
  NoDup (strings_ToLower <$> indexes) ∧
  ∀ k, k ∈ indexes → seenAt seen (strings_ToLower k) = false.
Proof.
  revert seen. induction indexes as [|index rest IH]; intros seen; simpl.
  - split; [intros _; split; [constructor | intros k Hk; inversion Hk] | done].
  - rewrite app_nil, IH, NoDup_cons. split.
    + intros (Hseen & Hnd & Hrest). destruct (seenAt seen _) eqn:Hs; [done|].
      split_and!; [|done|].
      * intros (k & Hk & Hin)%list_elem_of_fmap.
        apply Hrest, seenAt_insert in Hin as [Hne _]. done.
      * intros k [->|Hin]%elem_of_cons; [done|].
        by apply Hrest, seenAt_insert in Hin as [_ ?].
    + intros ((Hfresh & Hnd) & Hall).
      rewrite (Hall index) by (by left). split_and!; [done | done |].
      intros k Hin. apply seenAt_insert. split; [|apply Hall; by right].
      intros Heq. apply Hfresh. rewrite <- Heq. by apply list_elem_of_fmap_2.
Qed.

Lemma NoDup_fmap_inj_on {A B} (f : A → B) (l : list A) (x y : A) :
  NoDup (f <$> l) → x ∈ l → y ∈ l → f x = f y → x = y.
Proof.
  induction l as [|z l IH]; simpl; [intros _ H; inversion H|].
  rewrite NoDup_cons. intros [Hz Hnd].
  intros [->|Hx]%elem_of_cons [->|Hy]%elem_of_cons Heq; [done| | |by apply IH].
  - exfalso. apply Hz. rewrite Heq. by apply list_elem_of_fmap_2.
  - exfalso. apply Hz. rewrite <- Heq. by apply list_elem_of_fmap_2.
Qed.

(** X22. The sub-test on element indexes passes exactly when no two
    identifiers of the catalog become equal once lower-cased, in whatever
    order the range visits the map. *)
Theorem checkElementIndexes_passes_iff (elements : gmap string Element)
    (indexes : list string) :
  indexes ≡ₚ (map_to_list elements).*1 →
  (checkElementIndexes indexes ∅ = [] ↔
   ∀ k1 k2, is_Some (elements !! k1) → is_Some (elements !! k2) →
            strings_ToLower k1 = strings_ToLower k2 → k1 = k2).
Proof.
  intros Hperm.
  assert (Hin : ∀ k, k ∈ indexes ↔ is_Some (elements !! k)).
  { intros k. rewrite Hperm, list_elem_of_fmap. split.
    - intros ([k' e] & -> & H%elem_of_map_to_list). simpl. eauto.
    - intros [e H]. exists (k, e). split; [done|]. by apply elem_of_map_to_list. }
  assert (Hnd : NoDup indexes).
  { rewrite Hperm. apply NoDup_fst_map_to_list. }
  rewrite checkElementIndexes_nil. split.
  - intros [Hlow _] k1 k2 H1%Hin H2%Hin Heq.
    by apply (NoDup_fmap_inj_on strings_ToLower indexes).
  - intros Hinj. split; [|done].
    apply NoDup_fmap_2_strong; [|done].
    intros k1 k2 H1%Hin H2%Hin. by apply Hinj.
Qed.

Lemma checkElementIndexes_passes_iff_witness :
  ["water"; "steam"; "fire"; "wind"; "earth"] ≡ₚ (map_to_list (Elements steamGame)).*1 ∧
  (checkElementIndexes ["water"; "steam"; "fire"; "wind"; "earth"] ∅ = [] ↔
   ∀ k1 k2, is_Some (Elements steamGame !! k1) → is_Some (Elements steamGame !! k2) →
            strings_ToLower k1 = strings_ToLower k2 → k1 = k2).
Proof.
  assert (H : ["water"; "steam"; "fire"; "wind"; "earth"]
                ≡ₚ (map_to_list (Elements steamGame)).*1).
  { apply (bool_decide_unpack (_ ≡ₚ _)). vm_compute. exact I. }
  split; [exact H|].
  exact (checkElementIndexes_passes_iff (Elements steamGame) _ H).
Defined.

Lemma checkElementNames_nil (elems : list Element) (seen : gmap string bool) :
  checkElementNames elems seen = [] ↔
  NoDup (Name <$> elems) ∧ ∀ e, e ∈ elems → seenAt seen (Name e) = false.
Proof.
  revert seen. induction elems as [|elem rest IH]; intros seen; simpl.
  - split; [intros _; split; [constructor | intros k Hk; inversion Hk] | done].
  - rewrite app_nil, IH, NoDup_cons. split.
    + intros (Hseen & Hnd & Hrest). destruct (seenAt seen _) eqn:Hs; [done|].
      split_and!; [|done|].
      * intros (e & He & Hin)%list_elem_of_fmap.
        apply Hrest, seenAt_insert in Hin as [Hne _]. done.
      * intros e [->|Hin]%elem_of_cons; [done|].
        by apply Hrest, seenAt_insert in Hin as [_ ?].
    + intros ((Hfresh & Hnd) & Hall).
      rewrite (Hall elem) by (by left). split_and!; [done | done |].
      intros e Hin. apply seenAt_insert. split; [|apply Hall; by right].
      intros Heq. apply Hfresh. rewrite <- Heq. by apply list_elem_of_fmap_2.
Qed.

(** X23. The sub-test on element names passes exactly when no display name
    is carried by two identifiers of the catalog, in whatever order the
    range visits the map. *)
Theorem checkElementNames_passes_iff (elements : gmap string Element)
    (elems : list Element) :
  elems ≡ₚ (map_to_list elements).*2 →
  (checkElementNames elems ∅ = [] ↔
   ∀ k1 k2 e1 e2, elements !! k1 = Some e1 → elements !! k2 = Some e2 →
                  Name e1 = Name e2 → k1 = k2).
Proof.
  intros Hperm. rewrite checkElementNames_nil.
  assert (Hnames : NoDup (Name <$> elems) ↔
                   NoDup ((λ p, Name p.2) <$> map_to_list elements)).
  { rewrite Hperm, <- list_fmap_compose. done. }
  split.
  - intros [Hnd%Hnames _] k1 k2 e1 e2 H1%elem_of_map_to_list H2%elem_of_map_to_list Heq.
    by injection (NoDup_fmap_inj_on (λ p : string * Element, Name p.2)
                    _ (k1, e1) (k2, e2) Hnd H1 H2 Heq).
  - intros Hinj. split; [|done]. apply Hnames.
    apply NoDup_fmap_2_strong; [|apply NoDup_map_to_list].
    intros [k1 e1] [k2 e2] H1%elem_of_map_to_list H2%elem_of_map_to_list Heq.
    simpl in Heq. assert (k1 = k2) as -> by (by eapply Hinj). congruence.
Qed.

Lemma checkElementNames_passes_iff_witness :
  [mkElement "C" ""; mkElement "A" ""; mkElement "B" ""]
    ≡ₚ (map_to_list (Elements abcGame)).*2 ∧
  (checkElementNames [mkElement "C" ""; mkElement "A" ""; mkElement "B" ""] ∅ = [] ↔
   ∀ k1 k2 e1 e2, Elements abcGame !! k1 = Some e1 → Elements abcGame !! k2 = Some e2 →
                  Name e1 = Name e2 → k1 = k2).
Proof.
  assert (H : [mkElement "C" ""; mkElement "A" ""; mkElement "B" ""]
                ≡ₚ (map_to_list (Elements abcGame)).*2).
  { vm_compute. reflexivity. }
  split; [exact H|].
  exact (checkElementNames_passes_iff (Elements abcGame) _ H).
Defined.

Lemma checkRecipes_cons (elements : gmap string Element) (recipe result : string)
    (rest : list (string * string)) (seen : gmap string bool) :
  checkRecipes elements ((recipe, result) :: rest) seen =
    if negb (length (strings_Split recipe "+") =? 2)%nat
    then ("Invalid recipe format: " +:+ recipe) :: checkRecipes elements rest seen
    else
      (match elements !! strings_TrimSpace (nth 0 (strings_Split recipe "+") "") with
       | Some _ => []
       | None => ["Recipe uses non-existent element: " +:+
                  strings_TrimSpace (nth 0 (strings_Split recipe "+") "")]
       end) ++
      (match elements !! strings_TrimSpace (nth 1 (strings_Split recipe "+") "") with
       | Some _ => []
       | None => ["Recipe uses non-existent element: " +:+
                  strings_TrimSpace (nth 1 (strings_Split recipe "+") "")]
       end) ++
      (match elements !! result with
       | Some _ => []
       | None => ["Recipe result is non-existent element: " +:+ result]
       end) ++
      (if seenAt seen (recipeComboKey recipe)
       then ["Duplicate recipe combination: " +:+ recipe]
       else []) ++
      checkRecipes elements rest (<[recipeComboKey recipe := true]> seen).
Proof. reflexivity. Qed.

Lemma report_nil {A} (o : option A) (msg : string) :
  match o with Some _ => [] | None => [msg] end = [] ↔ is_Some o.
Proof.
  destruct o; split.
  - eauto.
  - done.
  - discriminate.
  - intros [? ?]. discriminate.
Qed.

Lemma checkRecipes_nil (elements : gmap string Element)
    (entries : list (string * string)) (seen : gmap string bool) :
  checkRecipes elements entries seen = [] ↔
  Forall (recipeWellFormed elements) entries ∧
  NoDup (recipeComboKey <$> entries.*1) ∧
  ∀ e, e ∈ entries → seenAt seen (recipeComboKey e.1) = false.
Proof.
  revert seen. induction entries as [|[recipe result] rest IH]; intros seen.
  - simpl. split; [|done]. intros _.
    split_and!; [constructor | constructor | intros e He; inversion He].
  - rewrite checkRecipes_cons.
    destruct (Nat.eqb_spec (length (strings_Split recipe "+")) 2) as [Hlen|Hlen];
      cbn [negb].
    + rewrite !app_nil, !report_nil, IH, Forall_cons. csimpl. rewrite NoDup_cons.
      split.
      * intros (H1 & H2 & H3 & Hseen & Hwf & Hnd & Hrest).
        destruct (seenAt seen (recipeComboKey recipe)) eqn:Hs; [done|].
        split; [split; [by split_and!|done]|]. split; [split; [|done]|].
        -- intros (k & Hk & Hin)%list_elem_of_fmap.
           apply list_elem_of_fmap in Hin as (e & -> & Hin).
           apply Hrest, seenAt_insert in Hin as [Hne _]. done.
        -- intros e [->|Hin]%elem_of_cons; [done|].
           by apply Hrest, seenAt_insert in Hin as [_ ?].
      * intros ((Hwf0 & Hwf) & (Hfresh & Hnd) & Hall).
        destruct Hwf0 as (_ & H1 & H2 & H3). simpl in H1, H2, H3.
        pose proof (Hall (recipe, result) ltac:(by left)) as Hs. simpl in Hs.
        rewrite Hs.
        split_and!; try done.
        intros e Hin. apply seenAt_insert. split; [|apply Hall; by right].
        intros Heq. apply Hfresh. rewrite <- Heq.
        apply list_elem_of_fmap_2. by apply list_elem_of_fmap_2.
    + split; [discriminate|].
      intros (Hwf & _). apply Forall_cons in Hwf as [(Hl & _) _]. done.
Qed.

Lemma length_strings_Split (s : string) :
  length (strings_Split s "+") = S (countPlus s).
Proof.
  induction s as [|c s IH]; simpl; [done|].
  destruct (Ascii.eqb c "+"); simpl; [by rewrite IH|].
  destruct (strings_Split s "+"); simpl in *; [discriminate | done].
Qed.

Lemma countPlus_append (a b : string) :
  countPlus (a +:+ b) = countPlus a + countPlus b.
Proof.
  induction a as [|c a IH]; [done|].
  rewrite append_String. simpl. rewrite IH. lia.
Qed.

Lemma noPlus_countPlus (s : string) : countPlus s = 0 → noPlus s = true.
Proof.
  unfold noPlus. induction s as [|c s IH]; simpl; [done|].
  destruct (Ascii.eqb c "+"); simpl; [discriminate | exact IH].
Qed.

Lemma combo_two_parts (a b : string) :
  length (strings_Split (a +:+ "+" +:+ b) "+") = 2 →
  noPlus a = true ∧ noPlus b = true.
Proof.
  rewrite length_strings_Split, !countPlus_append. simpl. intros H.
  split; apply noPlus_countPlus; lia.
Qed.

Lemma recipeComboKey_combo (a b : string) :
  noPlus a = true → noPlus b = true →
  recipeComboKey (a +:+ "+" +:+ b) = recipeComboKey (b +:+ "+" +:+ a).
Proof.
  intros Ha Hb. unfold recipeComboKey. rewrite !strings_Split_combo by done. simpl.
  set (x := strings_TrimSpace a). set (y := strings_TrimSpace b).
  destruct (String.leb x y) eqn:Hxy, (String.leb y x) eqn:Hyx; simpl; try done.
  - assert (x = y) as ->; [|done].
    apply (anti_symm String.le); unfold String.le; [by rewrite Hxy | by rewrite Hyx].
  - destruct (String.leb_total x y); congruence.
Qed.

Lemma combo_eq_swap (a b : string) :
  noPlus a = true → noPlus b = true →
  a +:+ "+" +:+ b = b +:+ "+" +:+ a → a = b.
Proof.
  intros Ha Hb Heq.
  assert (H : strings_Split (a +:+ "+" +:+ b) "+" = strings_Split (b +:+ "+" +:+ a) "+")
    by (by rewrite Heq).
  rewrite !strings_Split_combo in H by done. by injection H.
Qed.

Lemma checkRecipes_one_direction (elements : gmap string Element)
    (recipes : gmap string string) (entries : list (string * string))
    (a b r1 r2 : string) :
  entries ≡ₚ map_to_list recipes →
  checkRecipes elements entries ∅ = [] →
  recipes !! (a +:+ "+" +:+ b) = Some r1 →
  recipes !! (b +:+ "+" +:+ a) = Some r2 →
  a = b.
Proof.
  intros Hperm (Hwf & Hnd & _)%checkRecipes_nil H1 H2.
  assert (Hin1 : (a +:+ "+" +:+ b, r1) ∈ entries)
    by (rewrite Hperm; by apply elem_of_map_to_list).
  assert (Hin2 : (b +:+ "+" +:+ a, r2) ∈ entries)
    by (rewrite Hperm; by apply elem_of_map_to_list).
  destruct (proj1 (Forall_forall _ _) Hwf _ Hin1) as (Hlen & _).
  apply combo_two_parts in Hlen as [Ha Hb].
  apply combo_eq_swap; [done..|].
  apply (NoDup_fmap_inj_on recipeComboKey (entries.*1)); [done | | |].
  - by apply (list_elem_of_fmap_2 fst) in Hin1.
  - by apply (list_elem_of_fmap_2 fst) in Hin2.
  - by apply recipeComboKey_combo.
Qed.

(** X24. The sub-test on recipes passes exactly when every recipe key has
    two parts that are (trimmed) elements of the catalog, every result is an
    element of the catalog, and no two keys name the same unordered pair, in
    whatever order the range visits the map. *)
Theorem checkRecipes_passes_iff (elements : gmap string Element)
    (recipes : gmap string string) (entries : list (string * string)) :
  entries ≡ₚ map_to_list recipes →
  (checkRecipes elements entries ∅ = [] ↔
   (∀ k v, recipes !! k = Some v → recipeWellFormed elements (k, v)) ∧
   (∀ k1 k2, is_Some (recipes !! k1) → is_Some (recipes !! k2) →
             recipeComboKey k1 = recipeComboKey k2 → k1 = k2)).
Proof.
  intros Hperm.
  assert (Hin : ∀ k v, (k, v) ∈ entries ↔ recipes !! k = Some v).
  { intros k v. rewrite Hperm. apply elem_of_map_to_list. }
  assert (Hkeys : ∀ k, k ∈ entries.*1 ↔ is_Some (recipes !! k)).
  { intros k. rewrite list_elem_of_fmap. split.
    - intros ([k' v] & -> & H%Hin). simpl. eauto.
    - intros [v H%Hin]. by exists (k, v). }
  rewrite checkRecipes_nil. split.
  - intros (Hwf & Hnd & _). split.
    + intros k v H%Hin. by apply (proj1 (Forall_forall _ _) Hwf).
    + intros k1 k2 H1%Hkeys H2%Hkeys Heq.
      by apply (NoDup_fmap_inj_on recipeComboKey (entries.*1)).
  - intros [Hwf Hinj]. split_and!; [| |done].
    + apply Forall_forall. intros [k v] H%Hin. by apply Hwf.
    + apply NoDup_fmap_2_strong.
      * intros k1 k2 H1%Hkeys H2%Hkeys. by apply Hinj.
      * rewrite Hperm. apply NoDup_fst_map_to_list.
Qed.

Lemma checkRecipes_passes_iff_witness :
  [("water+fire", "steam")] ≡ₚ map_to_list (Recipes steamGame) ∧
  (checkRecipes (Elements steamGame) [("water+fire", "steam")] ∅ = [] ↔
   (∀ k v, Recipes steamGame !! k = Some v →
           recipeWellFormed (Elements steamGame) (k, v)) ∧
   (∀ k1 k2, is_Some (Recipes steamGame !! k1) → is_Some (Recipes steamGame !! k2) →
             recipeComboKey k1 = recipeComboKey k2 → k1 = k2)).
Proof.
  assert (H : [("water+fire", "steam")] ≡ₚ map_to_list (Recipes steamGame)).
  { unfold steamGame. simpl. by rewrite map_to_list_singleton. }
  split; [exact H|].
  exact (checkRecipes_passes_iff (Elements steamGame) (Recipes steamGame) _ H).
Defined.

(** X25. On a catalog whose recipes pass the test, [combineElements] is
    symmetric in its operands without further condition, and every
    identifier it finds for a pair is an element of the catalog (so that the
    front-ends have a display name for it). *)
Theorem validated_recipes_resolve_symmetrically (gs : GameState)
    (entries : list (string * string)) (a b : string) :
  entries ≡ₚ map_to_list (Recipes gs) →
  checkRecipes (Elements gs) entries ∅ = [] →
  combineElements gs a b = combineElements gs b a ∧
  (∀ r, firstMatch (Recipes gs) a b r → is_Some (Elements gs !! r)).
Proof.
  intros Hperm Hpass. split.
  - unfold combineElements.
    destruct (Recipes gs !! (a +:+ "+" +:+ b)) as [r1|] eqn:H1;
      destruct (Recipes gs !! (b +:+ "+" +:+ a)) as [r2|] eqn:H2; try done.
    assert (a = b) as -> by (by eapply checkRecipes_one_direction).
    congruence.
  - apply checkRecipes_nil in Hpass as (Hwf & _ & _).
    intros r [Hr|[_ Hr]].
    + assert (Hin : (a +:+ "+" +:+ b, r) ∈ entries)
        by (rewrite Hperm; by apply elem_of_map_to_list).
      by destruct (proj1 (Forall_forall _ _) Hwf _ Hin) as (_ & _ & _ & ?).
    + assert (Hin : (b +:+ "+" +:+ a, r) ∈ entries)
        by (rewrite Hperm; by apply elem_of_map_to_list).
      by destruct (proj1 (Forall_forall _ _) Hwf _ Hin) as (_ & _ & _ & ?).
Qed.

Lemma validated_recipes_resolve_symmetrically_witness :
  ([("water+fire", "steam")] ≡ₚ map_to_list (Recipes steamGame) ∧
   checkRecipes (Elements steamGame) [("water+fire", "steam")] ∅ = []) ∧
  combineElements steamGame "fire" "water" = combineElements steamGame "water" "fire" ∧
  (∀ r, firstMatch (Recipes steamGame) "fire" "water" r →
        is_Some (Elements steamGame !! r)).
Proof.
  assert (H : [("water+fire", "steam")] ≡ₚ map_to_list (Recipes steamGame)).
  { unfold steamGame. simpl. by rewrite map_to_list_singleton. }
  assert (Hpass : checkRecipes (Elements steamGame) [("water+fire", "steam")] ∅ = [])
    by (vm_compute; reflexivity).
  split; [by split|].
  exact (validated_recipes_resolve_symmetrically steamGame _ "fire" "water" H Hpass).
Defined.

(** ** Beyond the claims: more on the enumerator and the session *)

Lemma innerLoop_all (gs : GameState) (a : string) (rest combos : list string) :
  Recipes gs = ∅ → Impossible gs = [] →
  ∃ combos', innerLoop gs a rest combos = Some combos' ∧
             length combos' = length combos + length rest.
Proof.
  intros Hr Hi. revert combos.
  induction rest as [|b rest IH]; intros combos; simpl; [eexists; split; [done|lia]|].
  unfold comboStep. rewrite Hr, !lookup_empty.
  destruct (comboStep_total gs a b combos) as [c Hc].
  unfold comboStep in Hc. rewrite Hr, !lookup_empty in Hc.
  destruct (isImpossible gs (a +:+ "+" +:+ b)) as [imp|] eqn:Himp;
    [|simpl in Hc; discriminate].
  assert (imp = false) as ->.
  { unfold isImpossible in Himp. rewrite Hi in Himp.
    destruct (strings_Split _ _ !! 1) as [e1|]; [|discriminate].
    destruct (strings_Split _ _ !! 0) as [e0|]; [|discriminate].
    simpl in Himp. by injection Himp as <-. }
  simpl. destruct (IH (combos ++
    [Name (elementAt (Elements gs) a) +:+ " + " +:+ Name (elementAt (Elements gs) b)]))
    as (c' & -> & Hlen).
  eexists. split; [done|]. rewrite Hlen, length_app. simpl. lia.
Qed.

Lemma outerLoop_all (gs : GameState) (l combos : list string) :
  Recipes gs = ∅ → Impossible gs = [] →
  ∃ combos', outerLoop gs l combos = Some combos' ∧
             2 * length combos' = 2 * length combos + length l * S (length l).
Proof.
  intros Hr Hi. revert combos. induction l as [|a rest IH]; intros combos.
  - simpl. eexists. split; [done|lia].
  - change (outerLoop gs (a :: rest) combos)
      with (innerLoop gs a (a :: rest) combos ≫= outerLoop gs rest).
    destruct (innerLoop_all gs a (a :: rest) combos Hr Hi) as (c1 & -> & Hlen1).
    cbn [mbind option_bind].
    destruct (IH c1) as (c2 & -> & Hlen2).
    eexists. split; [done|]. simpl in *. lia.
Qed.

(** X26. With no recipe stored and nothing marked impossible, every pair is
    untried: for a catalog of n elements [getUntriedCombos] lists exactly
    n(n+1)/2 combinations, whatever the identifiers look like. *)
Theorem getUntriedCombos_all_pairs (gs : GameState) :
  Recipes gs = ∅ → Impossible gs = [] →
  ∃ combos, getUntriedCombos gs = Some combos ∧
            2 * length combos = size (Elements gs) * S (size (Elements gs)).
Proof.
  intros Hr Hi. unfold getUntriedCombos.
  destruct (outerLoop_all gs (allElementNames gs) [] Hr Hi) as (combos & -> & Hlen).
  exists combos. split; [done|].
  rewrite allElementNames_length in Hlen. simpl in Hlen. lia.
Qed.

Lemma getUntriedCombos_all_pairs_witness :
  (Recipes (mkGameState (Elements plusGame) ∅ [] []) = ∅ ∧
   Impossible (mkGameState (Elements plusGame) ∅ [] []) = []) ∧
  ∃ combos,
    getUntriedCombos (mkGameState (Elements plusGame) ∅ [] []) = Some combos ∧
    2 * length combos =
      size (Elements (mkGameState (Elements plusGame) ∅ [] [])) *
      S (size (Elements (mkGameState (Elements plusGame) ∅ [] []))).
Proof.
  split; [by split|].
  exact (getUntriedCombos_all_pairs (mkGameState (Elements plusGame) ∅ [] [])
           eq_refl eq_refl).
Defined.

Lemma mainSession_grows_witness :
  NoDup (Discovered steamGame) ∧
  NoDup (Discovered (mainSession steamGame [("earth", "wind"); ("Fire", "water")])).
Proof.
  assert (H : NoDup (Discovered steamGame))
    by (apply (bool_decide_unpack (NoDup (Discovered steamGame))); exact I).
  split; [exact H|].
  exact (proj2 (proj2 (proj2
           (mainSession_grows steamGame [("earth", "wind"); ("Fire", "water")]))) H).
Defined.

Lemma isImpossible_panics_iff_witness :
  noPlus "water" = true ∧ isImpossible steamGame "water" = None.
Proof.
  split; [reflexivity|].
  exact (proj2 (isImpossible_panics_iff steamGame "water") eq_refl).
Defined.
